(** * A shallow embedding of the custom [Vector] container (customVector.hpp)

    The development models the allocator calls of [SimpleAllocator] on an
    explicit heap of storage blocks, the private and public member functions
    of [Vector] as state-passing functions over that heap, and then states
    the properties of the container's specification about them.

    Modelling conventions.
    - [size_t] counters are [nat]: a count is bounded by the number of
      elements that were allocated, so no counter of the source wraps.
    - A pointer [T*] is a block identifier and an element offset; [nullptr]
      has no block.  Pointer arithmetic [p + i] only moves the offset.
    - A storage block records the number of slots it was allocated with and
      the cells in which an element is currently constructed.  A
      construction at an offset past the allocated slots is a buffer
      overflow (undefined behaviour in C++); the model records the element
      at that offset, as a flat memory would, so that the overflow stays
      visible in the block ([bsize]) and in the event trace.
    - A call through a null or released block, a read or a destruction of a
      cell that holds no element, and a double release have no meaning at
      all: they yield [Undefined].
    - Element construction and allocation may throw.  Which call throws is
      fixed by two oracles over the running number of the call, which is
      how a test type "whose copy raises after a configurable number of
      operations" is described.
    - [std::move_if_noexcept] copies when the move constructor may throw and
      moves otherwise; a move that cannot throw is always followed by the
      destruction of the whole old block, so the transfer is modelled as a
      copy of the element value that may throw.
    - [SimpleAllocator] is empty and always equal, and none of the
      propagation traits is set: the [alloc_] member carries no state. *)

From Stdlib Require QArith Qround.
From stdpp Require Import base option list gmap.

Set Default Proof Using "Type".

(** ** Pointers *)

Record Ptr : Type := MkPtr { base : option nat; off : nat }.

Definition nullptr : Ptr := MkPtr None 0.

(** [p + i] *)
Definition ptr_add (p : Ptr) (i : nat) : Ptr := MkPtr (base p) (off p + i).

Definition ptr_eqb (p q : Ptr) : bool :=
  bool_decide (base p = base q) && Nat.eqb (off p) (off q).

(** ** The container's fields *)

Record Vector : Type := MkVector { data_ : Ptr; size_ : nat; capacity_ : nat }.

(** ** Iterators: a cursor is the raw position it holds *)

Record Iterator : Type := MkIterator { it_ptr_ : Ptr }.
Record ConstIterator : Type := MkConstIterator { cit_ptr_ : Ptr }.

(** [ConstIterator(const Iterator&)] *)
Definition ConstIterator_of (it : Iterator) : ConstIterator :=
  MkConstIterator (it_ptr_ it).

Definition Iterator_eq (a b : Iterator) : bool := ptr_eqb (it_ptr_ a) (it_ptr_ b).
Definition Iterator_ne (a b : Iterator) : bool := negb (ptr_eqb (it_ptr_ a) (it_ptr_ b)).
Definition ConstIterator_eq (a b : ConstIterator) : bool :=
  ptr_eqb (cit_ptr_ a) (cit_ptr_ b).
Definition ConstIterator_ne (a b : ConstIterator) : bool :=
  negb (ptr_eqb (cit_ptr_ a) (cit_ptr_ b)).
(** the two mixed comparisons *)
Definition Iterator_eq_const (a : Iterator) (b : ConstIterator) : bool :=
  ptr_eqb (it_ptr_ a) (cit_ptr_ b).
Definition Iterator_ne_const (a : Iterator) (b : ConstIterator) : bool :=
  negb (ptr_eqb (it_ptr_ a) (cit_ptr_ b)).
Definition ConstIterator_eq_mut (a : ConstIterator) (b : Iterator) : bool :=
  ptr_eqb (cit_ptr_ a) (it_ptr_ b).
Definition ConstIterator_ne_mut (a : ConstIterator) (b : Iterator) : bool :=
  negb (ptr_eqb (cit_ptr_ a) (it_ptr_ b)).

Definition begin (v : Vector) : Iterator := MkIterator (data_ v).
Definition end_ (v : Vector) : Iterator := MkIterator (ptr_add (data_ v) (size_ v)).
Definition begin_const (v : Vector) : ConstIterator := MkConstIterator (data_ v).
Definition end_const (v : Vector) : ConstIterator :=
  MkConstIterator (ptr_add (data_ v) (size_ v)).
Definition cbegin (v : Vector) : ConstIterator := MkConstIterator (data_ v).
Definition cend (v : Vector) : ConstIterator := MkConstIterator (data_ v).

(** ** Cursor arithmetic

    [difference_type] is [Z].  A position before the start of its block
    has no meaning ([None]); as with [ptr_add], positions are not checked
    against the end of the block. *)

(** [p + n] for a signed [n] *)
Definition ptr_offset (p : Ptr) (n : Z) : option Ptr :=
  if (0 <=? Z.of_nat (off p) + n)%Z
  then Some (MkPtr (base p) (Z.to_nat (Z.of_nat (off p) + n)))
  else None.

(** [p - q]: the distance between two positions of one block *)
Definition ptr_diff (p q : Ptr) : option Z :=
  if bool_decide (base p = base q)
  then Some (Z.of_nat (off p) - Z.of_nat (off q))%Z
  else None.

(** [++it] *)
Definition Iterator_inc (it : Iterator) : Iterator :=
  MkIterator (ptr_add (it_ptr_ it) 1).
(** [it++]: the old cursor is returned, the cursor moves on *)
Definition Iterator_post_inc (it : Iterator) : Iterator * Iterator :=
  (it, MkIterator (ptr_add (it_ptr_ it) 1)).
(** [--it] *)
Definition Iterator_dec (it : Iterator) : option Iterator :=
  MkIterator <$> ptr_offset (it_ptr_ it) (-1).
(** [it + n] *)
Definition Iterator_plus (it : Iterator) (n : Z) : option Iterator :=
  MkIterator <$> ptr_offset (it_ptr_ it) n.
(** [it - n] *)
Definition Iterator_minus (it : Iterator) (n : Z) : option Iterator :=
  MkIterator <$> ptr_offset (it_ptr_ it) (- n).
(** [it - other] *)
Definition Iterator_diff (it other : Iterator) : option Z :=
  ptr_diff (it_ptr_ it) (it_ptr_ other).

Definition ConstIterator_inc (it : ConstIterator) : ConstIterator :=
  MkConstIterator (ptr_add (cit_ptr_ it) 1).
Definition ConstIterator_dec (it : ConstIterator) : option ConstIterator :=
  MkConstIterator <$> ptr_offset (cit_ptr_ it) (-1).
Definition ConstIterator_plus (it : ConstIterator) (n : Z) : option ConstIterator :=
  MkConstIterator <$> ptr_offset (cit_ptr_ it) n.
Definition ConstIterator_minus (it : ConstIterator) (n : Z) : option ConstIterator :=
  MkConstIterator <$> ptr_offset (cit_ptr_ it) (- n).
Definition ConstIterator_diff (it other : ConstIterator) : option Z :=
  ptr_diff (cit_ptr_ it) (cit_ptr_ other).

(** ** [SimpleAllocator::max_size] and the byte count of [allocate]

    [size_t] has [bits] bits and [sizeof(T)] is [sz] bytes. *)

(** [std::numeric_limits<size_type>::max()] *)
Definition SIZE_MAX (bits : N) : N := (2 ^ bits - 1)%N.

(** [max_size()]: [std::numeric_limits<size_type>::max() / sizeof(T)] *)
Definition max_size (bits sz : N) : N := (SIZE_MAX bits / sz)%N.

(** the argument [n * sizeof(T)] that [allocate(n)] hands to
    [::operator new], computed in [size_t] *)
Definition allocate_bytes (bits sz n : N) : N := ((n * sz) mod 2 ^ bits)%N.

(** ** Accessors that do not touch storage *)

Definition size (v : Vector) : nat := size_ v.
Definition capacity (v : Vector) : nat := capacity_ v.
Definition empty (v : Vector) : bool := Nat.eqb (size_ v) 0.

(** [Vector()] *)
Definition Vector_default : Vector := MkVector nullptr 0 0.

(** [Vector(Vector&& other)]: the new object and what is left of [other]. *)
Definition Vector_move (other : Vector) : Vector * Vector :=
  (MkVector (data_ other) (size_ other) (capacity_ other), MkVector nullptr 0 0).

(** The capacity [emplace_back] asks for when the storage is full:
    [(capacity_ == 0) ? 1 : static_cast<size_t>(capacity_ * 1.5)].  The
    product is computed in [double]; it is exact for every capacity below
    2^52, so the truncating cast is the integer quotient of [3 * c] by 2. *)
Definition new_capacity (c : nat) : nat :=
  if Nat.eqb c 0 then 1 else (c * 3) / 2.

(** ** The template parameters [T] and [Allocator] *)

(** What the container needs of its element type: the value made by [T()],
    and which construction call throws ([ctor_throws k]: the call number
    [k] does). *)
Class Element (T : Type) : Type := MkElement {
  dflt : T;
  ctor_throws : nat -> bool
}.

(** What varies in the allocator: which allocation call fails
    ([alloc_throws k]: the call number [k] throws [std::bad_alloc]). *)
Class Allocator : Type := MkAllocator { alloc_throws : nat -> bool }.

(** no call throws *)
Definition never : nat -> bool := fun _ => false.
(** the call number [k] throws, the others do not *)
Definition only (k : nat) : nat -> bool := fun j => Nat.eqb j k.

Section Storage.

Context {T : Type} {elt : Element T} {alc : Allocator}.

(** ** The heap of storage blocks *)

Record Block : Type := MkBlock { bsize : nat; cells : gmap nat T }.

Inductive Event : Type :=
| EvAllocate (b n : nat)
| EvDeallocate (b n : nat)
| EvConstruct (b i : nat) (x : T)
| EvDestroy (b i : nat).

Record World : Type := MkWorld {
  heap : gmap nat Block;
  next_block : nat;
  n_alloc : nat;
  n_ctor : nat;
  trace : list Event
}.

Definition World_init : World := MkWorld ∅ 0 0 0 [].

(** ** Results of a call: normal return, an exception, or no meaning *)

Inductive Res (A E : Type) : Type :=
| Ok (a : A) (w : World)
| Throw (e : E) (w : World)
| Undefined.
Arguments Ok {A E} a w.
Arguments Throw {A E} e w.
Arguments Undefined {A E}.

Definition bind {A B E} (m : Res A E) (k : A -> World -> Res B E) : Res B E :=
  match m with
  | Ok a w => k a w
  | Throw e w => Throw e w
  | Undefined => Undefined
  end.

(** An exception that leaves a callee propagates through the caller, which
    is then in the state [f] describes. *)
Definition rethrow {A E E'} (f : E -> E') (m : Res A E) : Res A E' :=
  match m with
  | Ok a w => Ok a w
  | Throw e w => Throw (f e) w
  | Undefined => Undefined
  end.

(** [try { m } catch (...) { h }] *)
Definition try_catch {A E E'} (m : Res A E) (h : E -> World -> Res A E') : Res A E' :=
  match m with
  | Ok a w => Ok a w
  | Throw e w => h e w
  | Undefined => Undefined
  end.

Notation "'let*' x ':=' m 'in' k" := (bind m (fun x => k))
  (at level 10, x name, m at level 100, k at level 200,
   format "'[v' 'let*'  x  ':='  m  'in' '/' k ']'").

(** a call that threw was still made: it is counted *)
Definition count_alloc (w : World) : World :=
  MkWorld (heap w) (next_block w) (S (n_alloc w)) (n_ctor w) (trace w).
Definition count_ctor (w : World) : World :=
  MkWorld (heap w) (next_block w) (n_alloc w) (S (n_ctor w)) (trace w).

(** ** [SimpleAllocator] through [std::allocator_traits] *)

Definition allocate (n : nat) (w : World) : Res Ptr unit :=
  if alloc_throws (n_alloc w) then
    Throw tt (count_alloc w)
  else
    let b := next_block w in
    Ok (MkPtr (Some b) 0)
       (MkWorld (<[b := MkBlock n ∅]> (heap w)) (S b) (S (n_alloc w)) (n_ctor w)
                (trace w ++ [EvAllocate b n])).

(** [::operator delete(ptr)]; deleting the null pointer does nothing. *)
Definition deallocate (p : Ptr) (n : nat) (w : World) : Res unit unit :=
  match base p with
  | None => Ok tt w
  | Some b =>
      match heap w !! b with
      | Some _ =>
          if Nat.eqb (off p) 0 then
            Ok tt (MkWorld (delete b (heap w)) (next_block w) (n_alloc w) (n_ctor w)
                           (trace w ++ [EvDeallocate b n]))
          else Undefined
      | None => Undefined
      end
  end.

(** [::new(ptr) T(args...)] *)
Definition construct (p : Ptr) (x : T) (w : World) : Res unit unit :=
  match base p with
  | None => Undefined
  | Some b =>
      match heap w !! b with
      | None => Undefined
      | Some blk =>
          if ctor_throws (n_ctor w) then
            Throw tt (count_ctor w)
          else
            Ok tt (MkWorld (<[b := MkBlock (bsize blk) (<[off p := x]> (cells blk))]> (heap w))
                           (next_block w) (n_alloc w) (S (n_ctor w))
                           (trace w ++ [EvConstruct b (off p) x]))
      end
  end.

(** [ptr->~T()] *)
Definition destroy (p : Ptr) (w : World) : Res unit unit :=
  match base p with
  | None => Undefined
  | Some b =>
      match heap w !! b with
      | None => Undefined
      | Some blk =>
          match cells blk !! off p with
          | None => Undefined
          | Some _ =>
              Ok tt (MkWorld (<[b := MkBlock (bsize blk) (delete (off p) (cells blk))]> (heap w))
                             (next_block w) (n_alloc w) (n_ctor w)
                             (trace w ++ [EvDestroy b (off p)]))
          end
      end
  end.

(** reading the element [*p] *)
Definition load (p : Ptr) (w : World) : option T :=
  b ← base p; blk ← heap w !! b; cells blk !! off p.

(** ** Loops over slots *)

(** [n] rounds of [construct(alloc_, dst + i, val(i)); ++constructed; ++i]:
    the loops [for (size_t i = ...; i < ...; ++i)] of the source that
    construct.  An exception leaves the loop with the number of completed
    constructions. *)
Fixpoint construct_loop (dst : Ptr) (val : nat -> World -> option T)
    (i n constructed : nat) (w : World) : Res unit nat :=
  match n with
  | 0 => Ok tt w
  | S n' =>
      match val i w with
      | None => Undefined
      | Some x =>
          let* _ := rethrow (fun _ => constructed) (construct (ptr_add dst i) x w) in
          construct_loop dst val (S i) n' (S constructed)
      end
  end.

(** [n] rounds of [destroy(alloc_, p + i); ++i] *)
Fixpoint destroy_loop (p : Ptr) (i n : nat) (w : World) : Res unit unit :=
  match n with
  | 0 => Ok tt w
  | S n' => let* _ := destroy (ptr_add p i) w in destroy_loop p (S i) n'
  end.

Definition val_default : nat -> World -> option T := fun _ _ => Some dflt.
Definition val_const (x : T) : nat -> World -> option T := fun _ _ => Some x.
(** the element [src[i]] *)
Definition val_from (src : Ptr) : nat -> World -> option T :=
  fun i w => load (ptr_add src i) w.

(** ** Private members *)

Definition reserve_more (new_cap : nat) (v : Vector) (w : World) : Res Vector Vector :=
  let* new_data := rethrow (fun _ => v) (allocate new_cap w) in fun w =>
  try_catch
    (let* _ := construct_loop new_data (val_from (data_ v)) 0 (size_ v) 0 w in fun w =>
     let* _ := rethrow (fun _ => size_ v) (destroy_loop (data_ v) 0 (size_ v) w) in fun w =>
     let* _ := rethrow (fun _ => size_ v) (deallocate (data_ v) (capacity_ v) w) in
     Ok (MkVector new_data (size_ v) new_cap))
    (fun constructed w =>
     let* _ := rethrow (fun _ => v) (destroy_loop new_data 0 constructed w) in fun w =>
     let* _ := rethrow (fun _ => v) (deallocate new_data new_cap w) in
     Throw v).

(** ** Constructors and destructor *)

(** [explicit Vector(size_t n)] *)
Definition Vector_n (n : nat) (w : World) : Res Vector unit :=
  if Nat.ltb 0 n then
    let* data := allocate n w in fun w =>
    try_catch
      (let* _ := construct_loop data val_default 0 n 0 w in
       Ok (MkVector data n n))
      (fun _ w =>
       let* _ := deallocate data n w in
       Throw tt)
  else Ok (MkVector nullptr n n) w.

(** [Vector(size_t n, const T& value)] *)
Definition Vector_n_value (n : nat) (value : T) (w : World) : Res Vector unit :=
  if Nat.ltb 0 n then
    let* data := allocate n w in fun w =>
    try_catch
      (let* _ := construct_loop data (val_const value) 0 n 0 w in
       Ok (MkVector data n n))
      (fun _ w =>
       let* _ := deallocate data n w in
       Throw tt)
  else Ok (MkVector nullptr n n) w.

(** [Vector(const Vector& other)] *)
Definition Vector_copy (other : Vector) (w : World) : Res Vector unit :=
  if Nat.ltb 0 (size_ other) then
    let* data := allocate (size_ other) w in fun w =>
    try_catch
      (let* _ := construct_loop data (val_from (data_ other)) 0 (size_ other) 0 w in
       Ok (MkVector data (size_ other) (size_ other)))
      (fun _ w =>
       let* _ := deallocate data (size_ other) w in
       Throw tt)
  else Ok (MkVector nullptr (size_ other) (size_ other)) w.

(** [~Vector()] *)
Definition Vector_destroy (v : Vector) (w : World) : Res unit unit :=
  let* _ := destroy_loop (data_ v) 0 (size_ v) w in
  deallocate (data_ v) (capacity_ v).

(** ** Public members *)

(** [operator=(const Vector& other)]: [other] is only read while the
    temporary is built, so assignment to self is the call with
    [other = this]. *)
Definition copy_assign (this other : Vector) (w : World) : Res Vector Vector :=
  let* tmp := rethrow (fun _ => this) (Vector_copy other w) in fun w =>
  let this' := MkVector (data_ tmp) (size_ tmp) (capacity_ tmp) in
  let tmp' := MkVector (data_ this) (size_ this) (capacity_ this) in
  let* _ := rethrow (fun _ => this') (Vector_destroy tmp' w) in
  Ok this'.

Definition emplace_back (x : T) (v : Vector) (w : World) : Res Vector Vector :=
  let* v1 := (if Nat.eqb (size_ v) (capacity_ v)
              then reserve_more (new_capacity (capacity_ v)) v w
              else Ok v w) in fun w =>
  let* _ := rethrow (fun _ => v1) (construct (ptr_add (data_ v1) (size_ v1)) x w) in
  Ok (MkVector (data_ v1) (S (size_ v1)) (capacity_ v1)).

Definition push_back (x : T) (v : Vector) (w : World) : Res Vector Vector :=
  emplace_back x v w.

Definition pop_back (v : Vector) (w : World) : Res Vector Vector :=
  if Nat.ltb 0 (size_ v) then
    let v1 := MkVector (data_ v) (size_ v - 1) (capacity_ v) in
    let* _ := rethrow (fun _ => v1) (destroy (ptr_add (data_ v1) (size_ v1)) w) in
    Ok v1
  else Ok v w.

(** [operator[]] *)
Definition get (v : Vector) (index : nat) (w : World) : option T :=
  load (ptr_add (data_ v) index) w.

(** [at]: [inl tt] is the [std::out_of_range] exception. *)
Definition at_ (v : Vector) (index : nat) (w : World) : unit + option T :=
  if Nat.leb (size_ v) index then inl tt else inr (get v index w).

Definition reserve (n : nat) (v : Vector) (w : World) : Res Vector Vector :=
  if Nat.ltb (capacity_ v) n then reserve_more n v w else Ok v w.

Definition shrink_to_fit (v : Vector) (w : World) : Res Vector Vector :=
  if Nat.ltb (size_ v) (capacity_ v) then
    if Nat.eqb (size_ v) 0 then
      let* _ := rethrow (fun _ => v) (deallocate (data_ v) (capacity_ v) w) in
      Ok (MkVector nullptr (size_ v) 0)
    else reserve_more (size_ v) v w
  else Ok v w.

(** [resize(size_t count)] *)
Definition resize (count : nat) (v : Vector) (w : World) : Res Vector Vector :=
  if Nat.ltb count (size_ v) then
    let* _ := rethrow (fun _ => v) (destroy_loop (data_ v) count (size_ v - count) w) in
    Ok (MkVector (data_ v) count (capacity_ v))
  else if Nat.ltb (size_ v) count then
    let* v1 := (if Nat.ltb (capacity_ v) count then reserve_more count v w
                else Ok v w) in fun w =>
    let* _ := rethrow (fun _ => v1)
                (construct_loop (data_ v1) val_default (size_ v1) (count - size_ v1) 0 w) in
    Ok (MkVector (data_ v1) count (capacity_ v1))
  else Ok v w.

(** [resize(size_t count, const T& value)] *)
Definition resize_value (count : nat) (value : T) (v : Vector) (w : World)
  : Res Vector Vector :=
  if Nat.ltb count (size_ v) then
    let* _ := rethrow (fun _ => v) (destroy_loop (data_ v) count (size_ v - count) w) in
    Ok (MkVector (data_ v) count (capacity_ v))
  else if Nat.ltb (size_ v) count then
    let* v1 := (if Nat.ltb (capacity_ v) count then reserve_more count v w
                else Ok v w) in fun w =>
    let* _ := rethrow (fun _ => v1)
                (construct_loop (data_ v1) (val_const value) (size_ v1) (count - size_ v1) 0 w) in
    Ok (MkVector (data_ v1) count (capacity_ v1))
  else Ok v w.

Definition clear (v : Vector) (w : World) : Res Vector Vector :=
  let* _ := rethrow (fun _ => v) (destroy_loop (data_ v) 0 (size_ v) w) in
  Ok (MkVector (data_ v) 0 (capacity_ v)).

(** the elements [v[0]], ..., [v[size_ - 1]] that hold a value *)
Definition elements (v : Vector) (w : World) : list (option T) :=
  (fun i => get v i w) <$> seq 0 (size_ v).

(** ** Sequences of appends *)

Fixpoint push_all (xs : list T) (v : Vector) (w : World) : Res Vector Vector :=
  match xs with
  | [] => Ok v w
  | x :: xs' => let* v1 := push_back x v w in push_all xs' v1
  end.

(** [Vector(InputIt first, InputIt last)] *)
Definition Vector_range (xs : list T) (w : World) : Res Vector unit :=
  rethrow (fun _ => tt) (push_all xs (MkVector nullptr 0 0) w).

(** ** Dereferencing and traversal *)

(** [*it] *)
Definition Iterator_deref (it : Iterator) (w : World) : option T :=
  load (it_ptr_ it) w.
Definition ConstIterator_deref (it : ConstIterator) (w : World) : option T :=
  load (cit_ptr_ it) w.

(** [for (auto it = first; it != last; ++it) { ... *it ... }], the loop of
    main.cpp and of a range-based [for]: the values visited, in order.
    [fuel] bounds the number of rounds; [None] when it runs out. *)
Fixpoint traverse (fuel : nat) (it last : Iterator) (w : World)
  : option (list (option T)) :=
  if Iterator_ne it last then
    match fuel with
    | 0 => None
    | S fuel' => cons (Iterator_deref it w) <$> traverse fuel' (Iterator_inc it) last w
    end
  else Some [].

Fixpoint traverse_const (fuel : nat) (it last : ConstIterator) (w : World)
  : option (list (option T)) :=
  if ConstIterator_ne it last then
    match fuel with
    | 0 => None
    | S fuel' =>
        cons (ConstIterator_deref it w) <$> traverse_const fuel' (ConstIterator_inc it) last w
    end
  else Some [].

(** ** Comparison of containers *)

(** [std::equal(first1, first1 + n, first2)] with [eqb] the [operator==]
    of [T]: [None] when an element that is read does not exist *)
Fixpoint equal_loop (eqb : T -> T -> bool) (p q : Ptr) (i n : nat) (w : World)
  : option bool :=
  match n with
  | 0 => Some true
  | S n' =>
      x ← load (ptr_add p i) w;
      y ← load (ptr_add q i) w;
      if eqb x y then equal_loop eqb p q (S i) n' w else Some false
  end.

(** [operator==(const Vector& lhs, const Vector& rhs)] *)
Definition Vector_eq (eqb : T -> T -> bool) (lhs rhs : Vector) (w : World) : option bool :=
  if Nat.eqb (size_ lhs) (size_ rhs)
  then equal_loop eqb (data_ lhs) (data_ rhs) 0 (size_ lhs) w
  else Some false.

(** [operator!=(const Vector& lhs, const Vector& rhs)] *)
Definition Vector_ne (eqb : T -> T -> bool) (lhs rhs : Vector) (w : World) : option bool :=
  negb <$> Vector_eq eqb lhs rhs w.

(** ** Assignments that take their source apart *)



(** ** The calls of the public interface that change a container *)

Inductive Call : Type :=
| CallEmplaceBack (x : T)
| CallPushBack (x : T)
| CallPopBack
| CallReserve (n : nat)
| CallShrinkToFit
| CallResize (count : nat)
| CallResizeValue (count : nat) (value : T)
| CallClear.

Definition run (c : Call) (v : Vector) (w : World) : Res Vector Vector :=
  match c with
  | CallEmplaceBack x => emplace_back x v w
  | CallPushBack x => push_back x v w
  | CallPopBack => pop_back v w
  | CallReserve n => reserve n v w
  | CallShrinkToFit => shrink_to_fit v w
  | CallResize count => resize count v w
  | CallResizeValue count value => resize_value count value v w
  | CallClear => clear v w
  end.

(** The capacity a call asks [reserve_more] for, when the guards of the
    source send it there. *)
Definition reallocates (c : Call) (v : Vector) : option nat :=
  match c with
  | CallEmplaceBack _ | CallPushBack _ =>
      if Nat.eqb (size_ v) (capacity_ v) then Some (new_capacity (capacity_ v)) else None
  | CallReserve n => if Nat.ltb (capacity_ v) n then Some n else None
  | CallShrinkToFit =>
      if Nat.ltb (size_ v) (capacity_ v) && negb (Nat.eqb (size_ v) 0)
      then Some (size_ v) else None
  | CallResize count | CallResizeValue count _ =>
      if Nat.ltb (size_ v) count && Nat.ltb (capacity_ v) count then Some count else None
  | CallPopBack | CallClear => None
  end.

Fixpoint run_all (cs : list Call) (v : Vector) (w : World) : Res Vector Vector :=
  match cs with
  | [] => Ok v w
  | c :: cs' => let* v1 := run c v w in run_all cs' v1
  end.

(** ** Well-formed states and the class invariant *)

(** every block identifier in use was handed out by [allocate] *)
Definition heap_fresh (w : World) : bool :=
  bool_decide (map_Forall (fun b _ => b < next_block w) (heap w)).

(** [data_] is null with no slots, or the start of a live block of
    [capacity_] slots, and every slot below [size_] holds an element *)
Definition owns_storage (v : Vector) (w : World) : bool :=
  match base (data_ v) with
  | None => Nat.eqb (off (data_ v)) 0 && Nat.eqb (size_ v) 0 && Nat.eqb (capacity_ v) 0
  | Some b =>
      match heap w !! b with
      | None => false
      | Some blk =>
          Nat.eqb (off (data_ v)) 0 && Nat.eqb (bsize blk) (capacity_ v)
          && negb (Nat.eqb (capacity_ v) 0)
          && forallb (fun i => bool_decide (is_Some (cells blk !! i))) (seq 0 (size_ v))
      end
  end.

(** The states the member functions are written for.  Nothing here bounds
    [size_] by [capacity_]: the slots below [size_] may lie past the end of
    the block. *)
Definition wf (v : Vector) (w : World) : bool := heap_fresh w && owns_storage v w.

(** exactly the slots below [size_] hold an element *)
Definition constructed_exactly (v : Vector) (w : World) : bool :=
  match base (data_ v) with
  | None => true
  | Some b =>
      match heap w !! b with
      | None => false
      | Some blk => bool_decide (dom (cells blk) = set_seq 0 (size_ v))
      end
  end.

(** the invariant of the data model: [0 <= length <= capacity], and exactly
    the first [length] slots are constructed *)
Definition class_invariant (v : Vector) (w : World) : bool :=
  Nat.leb (size_ v) (capacity_ v) && constructed_exactly v w.

(** The states a program can bring a container to: it is made by a
    constructor at the start of the program and then changed by calls of
    the public interface; a call that throws leaves a container that is
    used further. *)
Inductive reachable : Vector -> World -> Prop :=
| reach_default : reachable Vector_default World_init
| reach_n n v w : Vector_n n World_init = Ok v w -> reachable v w
| reach_n_value n x v w : Vector_n_value n x World_init = Ok v w -> reachable v w
| reach_range xs v w : Vector_range xs World_init = Ok v w -> reachable v w
| reach_return c v w v' w' : reachable v w -> run c v w = Ok v' w' -> reachable v' w'
| reach_throw c v w v' w' : reachable v w -> run c v w = Throw v' w' -> reachable v' w'.

(** the allocator events of copying [other] into the block [bn] *)
Definition copy_events (bn : nat) (other : Vector) (w : World) : list Event :=
  if Nat.ltb 0 (size_ other) then
    EvAllocate bn (size_ other)
    :: omap (fun j => EvConstruct bn j <$> get other j w) (seq 0 (size_ other))
  else [].

(** the allocator events of destroying the container [v] *)
Definition release_events (v : Vector) : list Event :=
  match base (data_ v) with
  | Some b => (EvDestroy b <$> seq 0 (size_ v)) ++ [EvDeallocate b (capacity_ v)]
  | None => []
  end.

(** ** Descriptions of states, used by the properties below *)

(** the body the two overloads of [resize] share, over the values the new
    elements are constructed from *)
Definition resize_with (val : nat -> World -> option T) (count : nat)
    (v : Vector) (w : World) : Res Vector Vector :=
  if Nat.ltb count (size_ v) then
    let* _ := rethrow (fun _ => v) (destroy_loop (data_ v) count (size_ v - count) w) in
    Ok (MkVector (data_ v) count (capacity_ v))
  else if Nat.ltb (size_ v) count then
    let* v1 := (if Nat.ltb (capacity_ v) count then reserve_more count v w
                else Ok v w) in fun w =>
    let* _ := rethrow (fun _ => v1)
                (construct_loop (data_ v1) val (size_ v1) (count - size_ v1) 0 w) in
    Ok (MkVector (data_ v1) count (capacity_ v1))
  else Ok v w.

(** the two shapes of a well-formed container *)
Inductive storage_shape (v : Vector) (w : World) : Prop :=
| shape_null :
    data_ v = nullptr -> size_ v = 0 -> capacity_ v = 0 -> storage_shape v w
| shape_block b blk :
    data_ v = MkPtr (Some b) 0 -> heap w !! b = Some blk ->
    bsize blk = capacity_ v -> capacity_ v <> 0 ->
    (forall i, i < size_ v -> is_Some (cells blk !! i)) ->
    storage_shape v w.

(** [w'] is [w] after elements [g j] were constructed in the slots
    [i <= j < i + k] of block [b] *)
Record constructed_range (b i k : nat) (g : nat -> option T) (w w' : World) : Prop := {
  cr_frame : forall b', b' <> b -> heap w' !! b' = heap w !! b';
  cr_block : exists blk blk',
      heap w !! b = Some blk /\ heap w' !! b = Some blk' /\
      bsize blk' = bsize blk /\
      forall j, cells blk' !! j = if decide (i <= j < i + k) then g j else cells blk !! j;
  cr_next : next_block w' = next_block w;
  cr_alloc : n_alloc w' = n_alloc w;
  cr_ctor : n_ctor w' = n_ctor w + k;
  cr_trace : trace w' = trace w ++ omap (fun j => EvConstruct b j <$> g j) (seq i k)
}.

(** [w'] is [w] after the elements in the slots [i <= j < i + k] of block
    [b] were destroyed *)
Record destroyed_range (b i k : nat) (w w' : World) : Prop := {
  dr_frame : forall b', b' <> b -> heap w' !! b' = heap w !! b';
  dr_block : exists blk blk',
      heap w !! b = Some blk /\ heap w' !! b = Some blk' /\
      bsize blk' = bsize blk /\
      forall j, cells blk' !! j = if decide (i <= j < i + k) then None else cells blk !! j;
  dr_next : next_block w' = next_block w;
  dr_alloc : n_alloc w' = n_alloc w;
  dr_ctor : n_ctor w' = n_ctor w;
  dr_trace : trace w' = trace w ++ (EvDestroy b <$> seq i k)
}.

(** [v'], [w'] are [v], [w] after the elements moved to a new block of [n]
    slots and the old block was released *)
Record reallocated (n : nat) (v : Vector) (w : World) (v' : Vector) (w' : World)
  : Prop := {
  ra_vector : v' = MkVector (MkPtr (Some (next_block w)) 0) (size_ v) n;
  ra_new : exists blk',
      heap w' !! next_block w = Some blk' /\ bsize blk' = n /\
      forall j, cells blk' !! j = if decide (j < size_ v) then get v j w else None;
  ra_old : forall b, base (data_ v) = Some b -> heap w' !! b = None;
  ra_frame : forall b, b <> next_block w -> base (data_ v) <> Some b ->
                       heap w' !! b = heap w !! b;
  ra_next : next_block w' = S (next_block w);
  ra_alloc : n_alloc w' = S (n_alloc w);
  ra_ctor : n_ctor w' = n_ctor w + size_ v;
  ra_trace :
    trace w' =
      trace w ++ EvAllocate (next_block w) n
        :: omap (fun j => EvConstruct (next_block w) j <$> get v j w) (seq 0 (size_ v))
        ++ release_events v
}.

(** the allocator events of a transfer into block [bn] of [n] slots that
    fails at element [k]: [k] elements are constructed in the new block,
    the same [k] are destroyed, and the new block is released *)
Definition failed_transfer_events (bn n k : nat) (v : Vector) (w : World) : list Event :=
  EvAllocate bn n
  :: omap (fun j => EvConstruct bn j <$> get v j w) (seq 0 k)
  ++ (EvDestroy bn <$> seq 0 k) ++ [EvDeallocate bn n].

(** a failed call gave back every block it took: the heap is the one
    before the call *)
Definition rolled_back (w w' : World) : Prop :=
  heap w' = heap w /\ next_block w <= next_block w'.

(** [v'], [w'] are the new container and the world after the copy
    constructor copied [other] *)
Record copied (other : Vector) (w : World) (v' : Vector) (w' : World) : Prop := {
  cp_size : size_ v' = size_ other;
  cp_capacity : capacity_ v' = size_ other;
  cp_data :
    data_ v' = if Nat.ltb 0 (size_ other) then MkPtr (Some (next_block w)) 0 else nullptr;
  cp_frame : forall b, b <> next_block w -> heap w' !! b = heap w !! b;
  cp_new : 0 < size_ other ->
    exists blk',
      heap w' !! next_block w = Some blk' /\ bsize blk' = size_ other /\
      forall j, cells blk' !! j = if decide (j < size_ other) then get other j w else None;
  cp_same : size_ other = 0 -> w' = w;
  cp_next :
    next_block w' = if Nat.ltb 0 (size_ other) then S (next_block w) else next_block w;
  cp_trace : trace w' = trace w ++ copy_events (next_block w) other w
}.

(** a step on the container with storage [own] left every block numbered
    below [N], other than [own], as it was, and gave back no identifier *)
Definition keeps (N : nat) (own : option nat) (w w' : World) : Prop :=
  next_block w <= next_block w' /\
  forall b, b < N -> own <> Some b -> heap w' !! b = heap w !! b.

(** a pointer that, below [N], can only point into [own] *)
Definition points_within (N : nat) (own : option nat) (p : Ptr) : Prop :=
  forall b, base p = Some b -> b < N -> own = Some b.

End Storage.

Arguments Ok {T A E} a w.
Arguments Throw {T A E} e w.
Arguments Undefined {T A E}.

(** ** The element types and the allocators of the concrete runs *)

(** [int]: value-initialised to 0, construction never throws *)
Definition int_element : Element Z := MkElement Z 0%Z never.

(** a test type over [int] whose construction call number [k] throws *)
Definition throwing_element (k : nat) : Element Z := MkElement Z 0%Z (only k).

(** [SimpleAllocator] with enough memory *)
Definition SimpleAllocator : Allocator := MkAllocator never.

(** the container and the heap after [Vector<int> v(2, 7)] in a fresh
    program *)
Definition two_sevens : Vector := MkVector (MkPtr (Some 0) 0) 2 2.
Definition two_sevens_world : @World Z :=
  MkWorld {[ 0 := MkBlock 2 {[ 0 := 7%Z; 1 := 7%Z ]} ]} 1 1 2
          [EvAllocate 0 2; EvConstruct 0 0 7%Z; EvConstruct 0 1 7%Z].

(** an allocator whose allocation call number [k] fails *)
Definition failing_allocator (k : nat) : Allocator := MkAllocator (only k).

(** a container of one element in a block of three slots *)
Definition one_of_three : Vector := MkVector (MkPtr (Some 0) 0) 1 3.
Definition one_of_three_world : @World Z :=
  MkWorld {[ 0 := MkBlock 3 {[ 0 := 7%Z ]} ]} 1 1 1
          [EvAllocate 0 3; EvConstruct 0 0 7%Z].

(** two containers in one heap: [two_sevens] in block 0 and a container
    holding 5 in block 1 *)
Definition single_five : Vector := MkVector (MkPtr (Some 1) 0) 1 1.
Definition pair_world : @World Z :=
  MkWorld {[ 0 := MkBlock 2 {[ 0 := 7%Z; 1 := 7%Z ]}; 1 := MkBlock 1 {[ 0 := 5%Z ]} ]}
          2 2 3
          [EvAllocate 0 2; EvConstruct 0 0 7%Z; EvConstruct 0 1 7%Z;
           EvAllocate 1 1; EvConstruct 1 0 5%Z].

(** * Properties *)

Section Properties.

Context {T : Type} {elt : Element T} {alc : Allocator}.

Notation "'let*' x ':=' m 'in' k" := (bind m (fun x => k))
  (at level 10, x name, m at level 100, k at level 200).

Implicit Types (w : @World T) (blk : @Block T) (v : Vector) (x : T).

(** ** Reading the boolean predicates *)

Lemma heap_fresh_spec w b :
  heap_fresh w = true -> next_block w <= b -> heap w !! b = None.
Proof.
  unfold heap_fresh. intros Hf Hb. apply bool_decide_eq_true in Hf.
  destruct (heap w !! b) as [blk|] eqn:E; [|done].
  apply Hf in E. simpl in E. lia.
Qed.

Lemma heap_fresh_intro w :
  (forall b, next_block w <= b -> heap w !! b = None) -> heap_fresh w = true.
Proof.
  intros H. apply bool_decide_eq_true. intros b blk E. simpl.
  destruct (decide (b < next_block w)) as [|Hn]; [done|].
  rewrite H in E; [done | lia].
Qed.

Lemma owns_storage_spec v w : owns_storage v w = true <-> storage_shape v w.
Proof.
  unfold owns_storage. destruct v as [[bo o] s c]; simpl. split.
  - destruct bo as [b|].
    + destruct (heap w !! b) as [blk|] eqn:E; [|done].
      rewrite !andb_true_iff, negb_true_iff, forallb_forall.
      intros [[[Ho Hb] Hc] Hall].
      apply Nat.eqb_eq in Ho, Hb. apply Nat.eqb_neq in Hc. subst o.
      eapply shape_block; eauto. simpl. intros i Hi.
      eapply bool_decide_eq_true, Hall, in_seq. lia.
    + rewrite !andb_true_iff. intros [[Ho Hs] Hc].
      apply Nat.eqb_eq in Ho, Hs, Hc. subst. by apply shape_null.
  - intros [Hd Hs Hc | b blk Hd Hb Hbs Hc Hall]; simpl in *.
    + inversion Hd; subst. done.
    + inversion Hd; subst. rewrite Hb.
      rewrite !andb_true_iff, negb_true_iff, forallb_forall.
      repeat split; [by apply Nat.eqb_eq | by apply Nat.eqb_neq |].
      intros i Hi. apply bool_decide_eq_true, Hall. apply in_seq in Hi. lia.
Qed.

Lemma wf_spec v w : wf v w = true <-> heap_fresh w = true /\ storage_shape v w.
Proof. unfold wf. rewrite andb_true_iff, owns_storage_spec. done. Qed.

Lemma resize_eq count v w : resize count v w = resize_with val_default count v w.
Proof. reflexivity. Qed.

Lemma resize_value_eq count x v w :
  resize_value count x v w = resize_with (val_const x) count v w.
Proof. reflexivity. Qed.

(** ** The oracle: the first call of a run that throws *)

Lemma first_throw (f : nat -> bool) (t n : nat) :
  (forall j, j < n -> f (t + j) = false) \/
  (exists k, k < n /\ (forall j, j < k -> f (t + j) = false) /\ f (t + k) = true).
Proof.
  induction n as [|n IH]; [left; lia|].
  destruct IH as [IH | (k & Hk & Hlt & Hf)].
  - destruct (f (t + n)) eqn:E.
    + right. exists n. auto.
    + left. intros j Hj. destruct (decide (j = n)); subst; auto. apply IH. lia.
  - right. exists k. auto.
Qed.

(** ** The allocator calls *)

Lemma allocate_ok n w :
  alloc_throws (n_alloc w) = false ->
  allocate n w =
    Ok (MkPtr (Some (next_block w)) 0)
       (MkWorld (<[next_block w := MkBlock n ∅]> (heap w)) (S (next_block w))
                (S (n_alloc w)) (n_ctor w) (trace w ++ [EvAllocate (next_block w) n])).
Proof. unfold allocate. by intros ->. Qed.

Lemma allocate_throw n w :
  alloc_throws (n_alloc w) = true -> allocate n w = Throw tt (count_alloc w).
Proof. unfold allocate. by intros ->. Qed.

Lemma construct_ok b i x w blk :
  heap w !! b = Some blk -> ctor_throws (n_ctor w) = false ->
  construct (MkPtr (Some b) i) x w =
    Ok tt (MkWorld (<[b := MkBlock (bsize blk) (<[i := x]> (cells blk))]> (heap w))
                   (next_block w) (n_alloc w) (S (n_ctor w))
                   (trace w ++ [EvConstruct b i x])).
Proof. unfold construct. simpl. by intros -> ->. Qed.

Lemma construct_throw b i x w blk :
  heap w !! b = Some blk -> ctor_throws (n_ctor w) = true ->
  construct (MkPtr (Some b) i) x w = Throw tt (count_ctor w).
Proof. unfold construct. simpl. by intros -> ->. Qed.

Lemma destroy_ok b i x w blk :
  heap w !! b = Some blk -> cells blk !! i = Some x ->
  destroy (MkPtr (Some b) i) w =
    Ok tt (MkWorld (<[b := MkBlock (bsize blk) (delete i (cells blk))]> (heap w))
                   (next_block w) (n_alloc w) (n_ctor w)
                   (trace w ++ [EvDestroy b i])).
Proof. unfold destroy. simpl. by intros -> ->. Qed.

Lemma deallocate_ok b n w blk :
  heap w !! b = Some blk ->
  deallocate (MkPtr (Some b) 0) n w =
    Ok tt (MkWorld (delete b (heap w)) (next_block w) (n_alloc w) (n_ctor w)
                   (trace w ++ [EvDeallocate b n])).
Proof. unfold deallocate. simpl. by intros ->. Qed.

Lemma deallocate_null n w : deallocate nullptr n w = Ok tt w.
Proof. done. Qed.

(** ** The loops *)

Lemma constructed_range_refl b i g w blk :
  heap w !! b = Some blk -> constructed_range b i 0 g w w.
Proof.
  intros Hb. constructor; auto.
  - exists blk, blk. repeat split; auto. intros j. case_decide; [lia | done].
  - simpl. by rewrite app_nil_r.
Qed.

Lemma constructed_range_step b i k g x w w' blk :
  heap w !! b = Some blk -> g i = Some x ->
  constructed_range b (S i) k g
    (MkWorld (<[b := MkBlock (bsize blk) (<[i := x]> (cells blk))]> (heap w))
             (next_block w) (n_alloc w) (S (n_ctor w))
             (trace w ++ [EvConstruct b i x])) w' ->
  constructed_range b i (S k) g w w'.
Proof.
  intros Hb Hx [Hfr (blk1 & blk' & H1 & H' & Hsz & Hc) Hn Ha Hct Htr]; simpl in *.
  rewrite lookup_insert_eq in H1. inversion H1; subst blk1; clear H1. simpl in *.
  constructor; simpl.
  - intros b' Hne. rewrite Hfr by done. by rewrite lookup_insert_ne.
  - exists blk, blk'. repeat split; auto. intros j. rewrite Hc.
    destruct (decide (j = i)) as [->|Hne].
    + rewrite lookup_insert_eq. repeat case_decide; (done || lia).
    + rewrite lookup_insert_ne by done. repeat case_decide; (done || lia).
  - done.
  - done.
  - lia.
  - rewrite Htr, Hx. simpl. by rewrite <- app_assoc.
Qed.

(** the loop runs to its end when no construction throws *)
Lemma construct_loop_ok b val g : forall n i c w,
  is_Some (heap w !! b) ->
  (forall j w', i <= j < i + n ->
     (forall b', b' <> b -> heap w' !! b' = heap w !! b') -> val j w' = g j) ->
  (forall j, i <= j < i + n -> is_Some (g j)) ->
  (forall j, j < n -> ctor_throws (n_ctor w + j) = false) ->
  exists w', construct_loop (MkPtr (Some b) 0) val i n c w = Ok tt w' /\
             constructed_range b i n g w w'.
Proof.
  induction n as [|n IH]; intros i c w [blk Hb] Hval Hg Hthrow.
  - exists w. split; [done|]. by eapply constructed_range_refl.
  - destruct (Hg i) as [x Hx]; [lia|].
    cbn [construct_loop]. rewrite (Hval i w) by (auto; lia). rewrite Hx.
    unfold ptr_add. cbn [base off Nat.add].
    rewrite (construct_ok b i x w blk Hb) by (rewrite <- (Hthrow 0) by lia; f_equal; lia).
    cbn [rethrow bind].
    edestruct (IH (S i) (S c)) as (w' & Heq & Hcr); cycle 4.
    + exists w'. split; [exact Heq|]. eapply constructed_range_step; eauto.
    + simpl. rewrite lookup_insert_eq. eauto.
    + simpl. intros j w' Hj Hfr. apply Hval; [lia|].
      intros b' Hne. rewrite Hfr by done. by rewrite lookup_insert_ne.
    + intros j Hj. apply Hg. lia.
    + simpl. intros j Hj. rewrite <- (Hthrow (S j)) by lia. f_equal. lia.
Qed.

(** the loop stops at the first construction that throws, with [k]
    elements constructed *)
Lemma construct_loop_throw b val g : forall n i c w k,
  k < n ->
  is_Some (heap w !! b) ->
  (forall j w', i <= j <= i + k ->
     (forall b', b' <> b -> heap w' !! b' = heap w !! b') -> val j w' = g j) ->
  (forall j, i <= j <= i + k -> is_Some (g j)) ->
  (forall j, j < k -> ctor_throws (n_ctor w + j) = false) ->
  ctor_throws (n_ctor w + k) = true ->
  exists w1, construct_loop (MkPtr (Some b) 0) val i n c w = Throw (c + k) (count_ctor w1) /\
             constructed_range b i k g w w1.
Proof.
  induction n as [|n IH]; intros i c w k Hk [blk Hb] Hval Hg Hok Hthrow; [lia|].
  destruct (Hg i) as [x Hx]; [lia|].
  cbn [construct_loop]. rewrite (Hval i w) by (auto; lia). rewrite Hx.
  unfold ptr_add. cbn [base off Nat.add].
  destruct k as [|k].
  - rewrite (construct_throw b i x w blk Hb) by (rewrite <- Hthrow; f_equal; lia).
    cbn [rethrow bind]. exists w. rewrite Nat.add_0_r. split; [done|].
    by eapply constructed_range_refl.
  - rewrite (construct_ok b i x w blk Hb) by (rewrite <- (Hok 0) by lia; f_equal; lia).
    cbn [rethrow bind].
    match goal with |- context [construct_loop _ _ _ _ _ ?w0] =>
      edestruct (IH (S i) (S c) w0 k) as (w1 & Heq & Hcr) end; cycle 6.
    + exists w1. split.
      * rewrite Heq. f_equal. lia.
      * eapply constructed_range_step; eauto.
    + lia.
    + simpl. rewrite lookup_insert_eq. eauto.
    + simpl. intros j w' Hj Hfr. apply Hval; [lia|].
      intros b' Hne. rewrite Hfr by done. by rewrite lookup_insert_ne.
    + intros j Hj. apply Hg. lia.
    + simpl. intros j Hj. rewrite <- (Hok (S j)) by lia. f_equal. lia.
    + simpl. rewrite <- Hthrow. f_equal. lia.
Qed.

Lemma destroyed_range_refl b i w blk :
  heap w !! b = Some blk -> destroyed_range b i 0 w w.
Proof.
  intros Hb. constructor; auto.
  - exists blk, blk. repeat split; auto. intros j. case_decide; [lia | done].
  - simpl. by rewrite app_nil_r.
Qed.

Lemma destroy_loop_ok b : forall n i w blk,
  heap w !! b = Some blk ->
  (forall j, i <= j < i + n -> is_Some (cells blk !! j)) ->
  exists w', destroy_loop (MkPtr (Some b) 0) i n w = Ok tt w' /\
             destroyed_range b i n w w'.
Proof.
  induction n as [|n IH]; intros i w blk Hb Hall.
  - exists w. split; [done|]. by eapply destroyed_range_refl.
  - destruct (Hall i) as [x Hx]; [lia|].
    cbn [destroy_loop]. unfold ptr_add. cbn [base off Nat.add].
    rewrite (destroy_ok b i x w blk Hb Hx). cbn [bind].
    edestruct (IH (S i)) as (w' & Heq & [Hfr (blk1 & blk' & H1 & H' & Hsz & Hc) Hn Ha Hct Htr]);
      cycle 2.
    + exists w'. split; [exact Heq|]. simpl in *.
      rewrite lookup_insert_eq in H1. inversion H1; subst blk1; clear H1. simpl in *.
      constructor; simpl; auto.
      * intros b' Hne. rewrite Hfr by done. by rewrite lookup_insert_ne.
      * exists blk, blk'. repeat split; auto. intros j. rewrite Hc.
        destruct (decide (j = i)) as [->|Hne].
        -- rewrite lookup_delete_eq. repeat case_decide; (done || lia).
        -- rewrite lookup_delete_ne by done. repeat case_decide; (done || lia).
      * rewrite Htr. by rewrite <- app_assoc.
    + simpl. apply lookup_insert_eq.
    + simpl. intros j Hj. rewrite lookup_delete_ne by lia. apply Hall. lia.
Qed.

(** ** Reallocation *)

Lemma get_in_block v w b blk j :
  data_ v = MkPtr (Some b) 0 -> heap w !! b = Some blk -> get v j w = cells blk !! j.
Proof. unfold get, load, ptr_add. intros -> Hb. simpl. by rewrite Hb. Qed.

Lemma get_null v w j : data_ v = nullptr -> get v j w = None.
Proof. unfold get, load, ptr_add. by intros ->. Qed.

(** [get] only looks at the block of [data_] *)
Lemma get_frame v v' w w' j :
  data_ v' = data_ v ->
  (forall b, base (data_ v) = Some b -> heap w' !! b = heap w !! b) ->
  get v' j w' = get v j w.
Proof.
  unfold get, load, ptr_add. intros -> H. simpl.
  destruct (base (data_ v)) as [b|]; [|done]. simpl. by rewrite H.
Qed.

Lemma omap_ext_seq {B} (f g : nat -> option B) i k :
  (forall j, i <= j < i + k -> f j = g j) -> omap f (seq i k) = omap g (seq i k).
Proof.
  revert i. induction k as [|k IH]; intros i H; [done|].
  simpl. rewrite (H i) by lia.
  destruct (g i); [f_equal|]; apply IH; intros j Hj; apply H; lia.
Qed.

Lemma reserve_more_ok n v w :
  wf v w = true ->
  alloc_throws (n_alloc w) = false ->
  (forall j, j < size_ v -> ctor_throws (n_ctor w + j) = false) ->
  exists v' w', reserve_more n v w = Ok v' w' /\ reallocated n v w v' w'.
Proof.
  intros [Hfresh Hshape]%wf_spec Halloc Hctor.
  pose proof (heap_fresh_spec _ _ Hfresh (Nat.le_refl _)) as Hbn.
  unfold reserve_more. rewrite allocate_ok by done. cbn [rethrow bind].
  destruct Hshape as [Hd Hs Hc | b blk Hd Hb Hbs Hc Hall].
  - rewrite Hd, Hs. cbn. eexists _, _. split; [done|].
    constructor; cbn; rewrite ?Hd, ?Hs; try done.
    + eexists. rewrite lookup_insert_eq. repeat split.
    + intros b Hne _. by rewrite lookup_insert_ne.
    + unfold release_events. by rewrite Hd.
  - assert (b <> next_block w) as Hne by congruence.
    set (bn := next_block w) in *.
    match goal with |- context [construct_loop _ _ _ _ _ ?w0] => set (w1 := w0) end.
    destruct (construct_loop_ok bn (val_from (data_ v)) (fun j => cells blk !! j)
                (size_ v) 0 0 w1) as (w2 & Heq2 & Hcr).
    { subst w1. simpl. rewrite lookup_insert_eq. eauto. }
    { intros j w' _ Hfr. unfold val_from, load, ptr_add. rewrite Hd. simpl.
      rewrite Hfr by done. subst w1. simpl. rewrite lookup_insert_ne by done.
      by rewrite Hb. }
    { intros j Hj. apply Hall. lia. }
    { subst w1. simpl. done. }
    rewrite Heq2. cbn [try_catch bind]. rewrite Hd.
    destruct Hcr as [Hfr2 (blk1 & blk2 & H1 & H2 & Hsz2 & Hc2) Hn2 Ha2 Hct2 Htr2].
    subst w1; simpl in *. rewrite lookup_insert_eq in H1. inversion H1; subst blk1; clear H1.
    simpl in *.
    destruct (destroy_loop_ok b (size_ v) 0 w2 blk) as (w3 & Heq3 & Hdr).
    { rewrite Hfr2 by done. by rewrite lookup_insert_ne. }
    { intros j Hj. apply Hall. lia. }
    rewrite Heq3. cbn [rethrow bind].
    destruct Hdr as [Hfr3 (blk3 & blk3' & H3 & H3' & Hsz3 & Hc3) Hn3 Ha3 Hct3 Htr3].
    rewrite (deallocate_ok b (capacity_ v) w3 blk3') by done. cbn [rethrow bind].
    eexists _, _. split; [done|].
    constructor; cbn [heap next_block n_alloc n_ctor trace]; rewrite ?Hd; cbn [base].
    + done.
    + exists blk2. rewrite lookup_delete_ne by done. rewrite Hfr3 by done.
      repeat split; [done..|]. intros j. rewrite Hc2, lookup_empty.
      rewrite (get_in_block v w b blk j Hd Hb).
      repeat case_decide; (done || lia).
    + intros b' [= <-]. apply lookup_delete_eq.
    + intros b' Hne1 Hne2. rewrite lookup_delete_ne by congruence.
      rewrite Hfr3 by congruence. rewrite Hfr2 by done. by rewrite lookup_insert_ne.
    + lia.
    + lia.
    + lia.
    + rewrite Htr3, Htr2. unfold release_events. rewrite Hd. cbn [base].
      rewrite <- !app_assoc. cbn [app]. do 3 f_equal.
      apply omap_ext_seq. intros j _.
      by rewrite (get_in_block v w b blk j Hd Hb).
Qed.

Lemma reserve_more_alloc_throw n v w :
  alloc_throws (n_alloc w) = true -> reserve_more n v w = Throw v (count_alloc w).
Proof. intros H. unfold reserve_more. by rewrite allocate_throw. Qed.

Lemma reserve_more_transfer_throw n v w k :
  wf v w = true ->
  alloc_throws (n_alloc w) = false ->
  k < size_ v ->
  (forall j, j < k -> ctor_throws (n_ctor w + j) = false) ->
  ctor_throws (n_ctor w + k) = true ->
  reserve_more n v w =
    Throw v (MkWorld (heap w) (S (next_block w)) (S (n_alloc w)) (S (n_ctor w + k))
                     (trace w ++ failed_transfer_events (next_block w) n k v w)).
Proof.
  intros [Hfresh Hshape]%wf_spec Halloc Hk Hok Hthrow.
  pose proof (heap_fresh_spec _ _ Hfresh (Nat.le_refl _)) as Hbn.
  unfold reserve_more. rewrite allocate_ok by done. cbn [rethrow bind].
  destruct Hshape as [Hd Hs Hc | b blk Hd Hb Hbs Hc Hall]; [lia|].
  assert (b <> next_block w) as Hne by congruence.
  set (bn := next_block w) in *.
  match goal with |- context [construct_loop _ _ _ _ _ ?w0] => set (w1 := w0) end.
  destruct (construct_loop_throw bn (val_from (data_ v)) (fun j => cells blk !! j)
              (size_ v) 0 0 w1 k) as (w2 & Heq2 & Hcr).
  { done. }
  { subst w1. simpl. rewrite lookup_insert_eq. eauto. }
  { intros j w' _ Hfr. unfold val_from, load, ptr_add. rewrite Hd. simpl.
    rewrite Hfr by done. subst w1. simpl. rewrite lookup_insert_ne by done.
    by rewrite Hb. }
  { intros j Hj. apply Hall. lia. }
  { subst w1. simpl. done. }
  { subst w1. simpl. done. }
  rewrite Heq2. cbn [try_catch bind Nat.add].
  destruct Hcr as [Hfr2 (blk1 & blk2 & H1 & H2 & Hsz2 & Hc2) Hn2 Ha2 Hct2 Htr2].
  subst w1; simpl in *. rewrite lookup_insert_eq in H1. inversion H1; subst blk1; clear H1.
  simpl in *.
  destruct (destroy_loop_ok bn k 0 (count_ctor w2) blk2) as (w3 & Heq3 & Hdr).
  { done. }
  { intros j Hj. rewrite Hc2. case_decide; [|lia]. apply Hall. lia. }
  rewrite Heq3. cbn [rethrow bind].
  destruct Hdr as [Hfr3 (blk3 & blk3' & H3 & H3' & Hsz3 & Hc3) Hn3 Ha3 Hct3 Htr3].
  rewrite (deallocate_ok bn n w3 blk3') by done. cbn [rethrow bind].
  simpl in *. f_equal. f_equal.
  - apply map_eq. intros b'. destruct (decide (b' = bn)) as [->|Hb'].
    + by rewrite lookup_delete_eq.
    + rewrite lookup_delete_ne by done. rewrite Hfr3 by done. rewrite Hfr2 by done.
      by rewrite lookup_insert_ne.
  - lia.
  - lia.
  - lia.
  - rewrite Htr3, Htr2. unfold failed_transfer_events.
    rewrite <- !app_assoc. cbn [app]. do 3 f_equal.
    apply omap_ext_seq. intros j _.
    by rewrite (get_in_block v w b blk j Hd Hb).
Qed.

Lemma rolled_back_wf v w w' : rolled_back w w' -> wf v w = true -> wf v w' = true.
Proof.
  intros [Hh Hn]. rewrite !wf_spec. intros [Hf Hs]. split.
  - apply heap_fresh_intro. intros b Hb. rewrite Hh.
    eapply heap_fresh_spec; [done | lia].
  - destruct Hs as [Hd Hs Hc | b blk Hd Hb Hbs Hc Hall].
    + by apply shape_null.
    + eapply shape_block; eauto. by rewrite Hh.
Qed.

Lemma rolled_back_get v w w' j : rolled_back w w' -> get v j w' = get v j w.
Proof. intros [Hh _]. apply get_frame; [done|]. intros b _. by rewrite Hh. Qed.

(** [reserve_more] on a well-formed container either reallocates or throws
    and leaves the container and the heap as they were *)
Lemma reserve_more_cases n v w :
  wf v w = true ->
  (exists v' w', reserve_more n v w = Ok v' w' /\ reallocated n v w v' w') \/
  (exists w', reserve_more n v w = Throw v w' /\ rolled_back w w').
Proof.
  intros Hwf. destruct (alloc_throws (n_alloc w)) eqn:Ha.
  - right. eexists. split; [by apply reserve_more_alloc_throw|]. by split.
  - destruct (first_throw ctor_throws (n_ctor w) (size_ v)) as [Hok | (k & Hk & Hok & Ht)].
    + left. by apply reserve_more_ok.
    + right. eexists. split; [by eapply reserve_more_transfer_throw|].
      split; simpl; [done | lia].
Qed.

(** the state after a reallocation is well formed and holds the same
    elements *)
Lemma reallocated_wf n v w v' w' :
  wf v w = true -> n <> 0 -> reallocated n v w v' w' -> wf v' w' = true.
Proof.
  rewrite !wf_spec. intros [Hf Hs] Hn [-> (blk' & Hb' & Hsz & Hc) Hold Hfr Hnx _ _ _].
  split.
  - apply heap_fresh_intro. intros b Hb. rewrite Hnx in Hb.
    destruct (base (data_ v)) as [bo|] eqn:Ebo.
    + destruct (decide (b = bo)) as [->|Hne]; [by apply Hold|].
      rewrite Hfr by (congruence || lia). eapply heap_fresh_spec; [done | lia].
    + rewrite Hfr by (congruence || lia). eapply heap_fresh_spec; [done | lia].
  - eapply shape_block; simpl; eauto. intros i Hi. rewrite Hc.
    case_decide; [|lia].
    destruct Hs as [Hd Hs Hcap | b blk Hd Hb Hbs Hcap Hall]; [lia|].
    rewrite (get_in_block v w b blk i Hd Hb). by apply Hall.
Qed.

Lemma reallocated_get n v w v' w' j :
  reallocated n v w v' w' -> j < size_ v -> get v' j w' = get v j w.
Proof.
  intros [-> (blk' & Hb' & Hsz & Hc) _ _ _ _ _ _] Hj.
  erewrite get_in_block; [|reflexivity|exact Hb']. rewrite Hc. by case_decide.
Qed.

(** ** Failure while the elements are transferred *)

Lemma ltb_false_of_lt a b : a < b -> Nat.ltb b a = false.
Proof. intros H. apply Nat.ltb_ge. lia. Qed.

(** a call that reallocates starts with [reserve_more], and an exception
    that leaves [reserve_more] leaves the call *)
Lemma run_reserve_more_throw c v w n w' :
  reallocates c v = Some n ->
  reserve_more n v w = Throw v w' ->
  run c v w = Throw v w'.
Proof.
  intros Hre Hth.
  destruct c; cbn [run reallocates] in *; try discriminate.
  - unfold emplace_back. destruct (Nat.eqb (size_ v) (capacity_ v)); [|discriminate].
    injection Hre as <-. by rewrite Hth.
  - unfold push_back, emplace_back.
    destruct (Nat.eqb (size_ v) (capacity_ v)); [|discriminate].
    injection Hre as <-. by rewrite Hth.
  - unfold reserve. destruct (Nat.ltb (capacity_ v) n0); [|discriminate].
    injection Hre as <-. done.
  - unfold shrink_to_fit. destruct (Nat.ltb (size_ v) (capacity_ v)); [|discriminate].
    destruct (Nat.eqb (size_ v) 0); [discriminate|].
    injection Hre as <-. done.
  - rewrite resize_eq. unfold resize_with.
    destruct (Nat.ltb (size_ v) count) eqn:E1; [|discriminate].
    destruct (Nat.ltb (capacity_ v) count); [|discriminate].
    injection Hre as <-. apply Nat.ltb_lt in E1.
    rewrite (ltb_false_of_lt _ _ E1). by rewrite Hth.
  - rewrite resize_value_eq. unfold resize_with.
    destruct (Nat.ltb (size_ v) count) eqn:E1; [|discriminate].
    destruct (Nat.ltb (capacity_ v) count); [|discriminate].
    injection Hre as <-. apply Nat.ltb_lt in E1.
    rewrite (ltb_false_of_lt _ _ E1). by rewrite Hth.
Qed.


(** ** Calls that do not reallocate make no allocation *)

Lemma construct_n_alloc p x w :
  match construct p x w with
  | Ok _ w' | Throw _ w' => n_alloc w' = n_alloc w
  | Undefined => True
  end.
Proof.
  unfold construct. destruct (base p) as [b|]; [|done].
  destruct (heap w !! b); [|done]. by destruct (ctor_throws _).
Qed.

Lemma destroy_n_alloc p w :
  match destroy p w with
  | Ok _ w' | Throw _ w' => n_alloc w' = n_alloc w
  | Undefined => True
  end.
Proof.
  unfold destroy. destruct (base p) as [b|]; [|done].
  destruct (heap w !! b) as [blk|]; [|done]. by destruct (cells blk !! off p).
Qed.

Lemma deallocate_n_alloc p n w :
  match deallocate p n w with
  | Ok _ w' | Throw _ w' => n_alloc w' = n_alloc w
  | Undefined => True
  end.
Proof.
  unfold deallocate. destruct (base p) as [b|]; [|done].
  destruct (heap w !! b); [|done]. by destruct (Nat.eqb (off p) 0).
Qed.

Lemma construct_loop_n_alloc dst val : forall n i c w,
  match construct_loop dst val i n c w with
  | Ok _ w' | Throw _ w' => n_alloc w' = n_alloc w
  | Undefined => True
  end.
Proof.
  induction n as [|n IH]; intros i c w; cbn [construct_loop]; [done|].
  destruct (val i w) as [x|]; [|done].
  pose proof (construct_n_alloc (ptr_add dst i) x w) as H1.
  destruct (construct _ x w) as [[] w1 | [] w1 |]; cbn [rethrow bind]; [|done..].
  specialize (IH (S i) (S c) w1).
  destruct (construct_loop dst val (S i) n (S c) w1); [congruence..|done].
Qed.

Lemma destroy_loop_n_alloc p : forall n i w,
  match destroy_loop p i n w with
  | Ok _ w' | Throw _ w' => n_alloc w' = n_alloc w
  | Undefined => True
  end.
Proof.
  induction n as [|n IH]; intros i w; cbn [destroy_loop]; [done|].
  pose proof (destroy_n_alloc (ptr_add p i) w) as H1.
  destruct (destroy _ w) as [[] w1 | [] w1 |]; cbn [bind]; [|done..].
  specialize (IH (S i) w1).
  destruct (destroy_loop p (S i) n w1); [congruence..|done].
Qed.

(** [reallocates] reads the guards of the source: where it answers [None]
    the call makes no allocation *)
Lemma run_without_reallocation c v w :
  reallocates c v = None ->
  match run c v w with
  | Ok _ w' | Throw _ w' => n_alloc w' = n_alloc w
  | Undefined => True
  end.
Proof.
  intros Hre.
  assert (forall x, Nat.eqb (size_ v) (capacity_ v) = false ->
                    match emplace_back x v w with
                    | Ok _ w' | Throw _ w' => n_alloc w' = n_alloc w
                    | Undefined => True
                    end) as Hemplace.
  { intros x Hg. unfold emplace_back. rewrite Hg. cbn [bind].
    pose proof (construct_n_alloc (ptr_add (data_ v) (size_ v)) x w) as H1.
    destruct (construct _ x w) as [[] w1 | [] w1 |]; cbn [rethrow bind]; done. }
  assert (forall val count,
    (Nat.ltb (size_ v) count && Nat.ltb (capacity_ v) count = false) ->
    match resize_with val count v w with
    | Ok _ w' | Throw _ w' => n_alloc w' = n_alloc w
    | Undefined => True
    end) as Hresize.
  { intros val count Hg. unfold resize_with.
    destruct (Nat.ltb count (size_ v)).
    - pose proof (destroy_loop_n_alloc (data_ v) (size_ v - count) count w) as H1.
      destruct (destroy_loop _ count _ w) as [[] w1 | [] w1 |]; cbn [rethrow bind]; done.
    - destruct (Nat.ltb (size_ v) count); [|done]. cbn [andb] in Hg. rewrite Hg.
      cbn [bind].
      pose proof (construct_loop_n_alloc (data_ v) val (count - size_ v) (size_ v) 0 w)
        as H1.
      destruct (construct_loop _ val _ _ 0 w) as [[] w1 | e w1 |]; cbn [rethrow bind];
        done. }
  destruct c as [x | x | | n | | n | n x |]; cbn [run reallocates] in *.
  - apply Hemplace. by destruct (Nat.eqb _ _).
  - apply Hemplace. by destruct (Nat.eqb _ _).
  - unfold pop_back. destruct (Nat.ltb 0 (size_ v)); [|done].
    cbn [data_ size_].
    pose proof (destroy_n_alloc (ptr_add (data_ v) (size_ v - 1)) w) as H1.
    destruct (destroy _ w) as [[] w1 | [] w1 |]; cbn [rethrow bind]; done.
  - unfold reserve. destruct (Nat.ltb (capacity_ v) n); [discriminate | done].
  - unfold shrink_to_fit. destruct (Nat.ltb (size_ v) (capacity_ v)); [|done].
    destruct (Nat.eqb (size_ v) 0); [|discriminate].
    pose proof (deallocate_n_alloc (data_ v) (capacity_ v) w) as H1.
    destruct (deallocate _ _ w) as [[] w1 | [] w1 |]; cbn [rethrow bind]; done.
  - rewrite resize_eq. apply Hresize. by destruct (_ && _).
  - rewrite resize_value_eq. apply Hresize. by destruct (_ && _).
  - unfold clear.
    pose proof (destroy_loop_n_alloc (data_ v) (size_ v) 0 w) as H1.
    destruct (destroy_loop _ 0 _ w) as [[] w1 | [] w1 |]; cbn [rethrow bind]; done.
Qed.

(** ** Appending *)

Lemma new_capacity_spec c : new_capacity c = Nat.max 1 (c * 3 / 2).
Proof.
  unfold new_capacity. destruct (Nat.eqb_spec c 0) as [->|Hc]; [done|].
  assert (1 <= c * 3 / 2) by (apply Nat.div_le_lower_bound; lia). lia.
Qed.

(** the integer quotient is the floor of the product with 1.5 *)
Lemma new_capacity_floor c :
  c <> 0 ->
  Z.of_nat (new_capacity c)
  = Qround.Qfloor (QArith_base.Qmult (QArith_base.inject_Z (Z.of_nat c))
                                      (QArith_base.Qmake 15 10)).
Proof.
  intros Hc. unfold new_capacity. rewrite (proj2 (Nat.eqb_neq _ _) Hc).
  rewrite Nat2Z.inj_div, Nat2Z.inj_mul.
  unfold Qround.Qfloor, QArith_base.Qmult, QArith_base.inject_Z. cbn [QArith_base.Qnum QArith_base.Qden].
  change (Z.pos (1 * 10)) with 10%Z. change (Z.of_nat 2) with 2%Z. change (Z.of_nat 3) with 3%Z.
  rewrite <- (Z.div_mul_cancel_r (Z.of_nat c * 3) 2 5) by lia.
  f_equal. lia.
Qed.

(** the growth policy does not grow a capacity of 1 *)
Lemma new_capacity_one : new_capacity 1 = 1.
Proof. reflexivity. Qed.

Lemma new_capacity_grows c : 2 <= c -> c < new_capacity c.
Proof.
  intros Hc. unfold new_capacity. rewrite (proj2 (Nat.eqb_neq _ _)) by lia.
  apply Nat.div_le_lower_bound; lia.
Qed.

Lemma new_capacity_nonzero c : new_capacity c <> 0.
Proof. rewrite new_capacity_spec. lia. Qed.

(** what [emplace_back] does on a full container, outcome by outcome *)
Lemma emplace_back_full_cases v w x :
  wf v w = true ->
  size_ v = capacity_ v ->
  match emplace_back x v w with
  | Ok v' w' =>
      capacity_ v' = Nat.max 1 (capacity_ v * 3 / 2) /\
      size_ v' = S (size_ v) /\
      get v' (size_ v) w' = Some x /\
      (forall i, i < size_ v -> get v' i w' = get v i w) /\
      exists b pre,
        data_ v' = MkPtr (Some b) 0 /\
        trace w' = pre ++ [EvConstruct b (size_ v) x] /\
        EvAllocate b (Nat.max 1 (capacity_ v * 3 / 2)) ∈ pre
  | Throw v' w' =>
      size_ v' = size_ v /\ (forall i, i < size_ v -> get v' i w' = get v i w)
  | Undefined => False
  end /\
  (alloc_throws (n_alloc w) = false ->
   (forall j, j <= size_ v -> ctor_throws (n_ctor w + j) = false) ->
   exists v' w', emplace_back x v w = Ok v' w').
Proof.
  intros Hwf Hfull. unfold emplace_back.
  rewrite (proj2 (Nat.eqb_eq _ _) Hfull).
  rewrite <- new_capacity_spec. set (n := new_capacity (capacity_ v)).
  split.
  - destruct (reserve_more_cases n v w Hwf) as [(v1 & w1 & -> & Hra) | (w1 & -> & Hrb)];
      cbn [bind].
    + pose proof Hra as [Hv1 (blk' & Hb' & Hsz & Hc) _ _ _ _ _ Htr]. subst v1.
      cbn [data_ size_ capacity_]. unfold ptr_add. cbn [base off Nat.add].
      destruct (ctor_throws (n_ctor w1)) eqn:Ect.
      * rewrite (construct_throw _ _ _ _ _ Hb' Ect). cbn [rethrow bind size_].
        split; [done|]. intros i Hi.
        rewrite <- (reallocated_get _ _ _ _ _ i Hra Hi).
        apply get_frame; done.
      * rewrite (construct_ok _ _ _ _ _ Hb' Ect). cbn [rethrow bind size_ capacity_ data_].
        repeat split.
        -- erewrite get_in_block; [|reflexivity|]; cbn [heap].
           2: apply lookup_insert_eq. cbn [cells]. apply lookup_insert_eq.
        -- intros i Hi. rewrite <- (reallocated_get _ _ _ _ _ i Hra Hi).
           erewrite !get_in_block; [|reflexivity|exact Hb'|reflexivity|]; cbn [heap].
           2: apply lookup_insert_eq. cbn [cells]. apply lookup_insert_ne. lia.
        -- eexists _, _. split; [done|]. cbn [trace]. split; [done|].
           rewrite Htr. set_solver.
    + split; [done|]. intros i _. by apply rolled_back_get.
  - intros Ha Hct.
    destruct (reserve_more_ok n v w Hwf Ha) as (v1 & w1 & -> & Hra).
    { intros j Hj. apply Hct. lia. }
    destruct Hra as [Hv1 (blk' & Hb' & Hsz & Hc) _ _ _ _ Hnc _]. subst v1.
    cbn [bind data_ size_ capacity_]. unfold ptr_add. cbn [base off Nat.add].
    rewrite (construct_ok _ _ _ _ _ Hb') by (rewrite Hnc; apply Hct; lia).
    cbn [rethrow bind]. eauto.
Qed.


(** ** Giving back unused capacity *)


(** ** Copy construction and copy assignment *)

Lemma Vector_copy_empty other w :
  size_ other = 0 ->
  exists v', Vector_copy other w = Ok v' w /\ copied other w v' w.
Proof.
  intros Hz. unfold Vector_copy. rewrite Hz. cbn. eexists. split; [done|].
  constructor; cbn [size_ capacity_ data_]; rewrite ?Hz; try done; try lia.
  unfold copy_events. rewrite Hz. cbn. by rewrite app_nil_r.
Qed.

Lemma Vector_copy_ok other w :
  wf other w = true ->
  alloc_throws (n_alloc w) = false ->
  (forall j, j < size_ other -> ctor_throws (n_ctor w + j) = false) ->
  exists v' w', Vector_copy other w = Ok v' w' /\ copied other w v' w'.
Proof.
  intros [Hfresh Hshape]%wf_spec Halloc Hctor.
  destruct (Nat.ltb_spec 0 (size_ other)) as [Hpos|Hz].
  2: { destruct (Vector_copy_empty other w) as (v' & ? & ?); [lia | eauto]. }
  pose proof (heap_fresh_spec _ _ Hfresh (Nat.le_refl _)) as Hbn.
  destruct Hshape as [Hd Hs Hc | b blk Hd Hb Hbs Hc Hall]; [lia|].
  assert (b <> next_block w) as Hne by congruence.
  unfold Vector_copy. rewrite (proj2 (Nat.ltb_lt _ _) Hpos).
  rewrite allocate_ok by done. cbn [bind].
  set (bn := next_block w) in *.
  match goal with |- context [construct_loop _ _ _ _ _ ?w0] => set (w1 := w0) end.
  destruct (construct_loop_ok bn (val_from (data_ other)) (fun j => cells blk !! j)
              (size_ other) 0 0 w1) as (w2 & Heq2 & Hcr).
  { subst w1. simpl. rewrite lookup_insert_eq. eauto. }
  { intros j w' _ Hfr. unfold val_from, load, ptr_add. rewrite Hd. simpl.
    rewrite Hfr by done. subst w1. simpl. rewrite lookup_insert_ne by done.
    by rewrite Hb. }
  { intros j Hj. apply Hall. lia. }
  { subst w1. simpl. done. }
  rewrite Heq2. cbn [try_catch bind].
  destruct Hcr as [Hfr2 (blk1 & blk2 & H1 & H2 & Hsz2 & Hc2) Hn2 Ha2 Hct2 Htr2].
  subst w1; simpl in *. rewrite lookup_insert_eq in H1. inversion H1; subst blk1; clear H1.
  simpl in *.
  eexists _, w2. split; [done|].
  constructor; cbn [size_ capacity_ data_]; rewrite ?(proj2 (Nat.ltb_lt _ _) Hpos);
    try done.
  - intros b' Hb'. rewrite Hfr2 by done. by rewrite lookup_insert_ne.
  - intros _. exists blk2. repeat split; [done..|]. intros j. rewrite Hc2, lookup_empty.
    rewrite (get_in_block other w b blk j Hd Hb).
    repeat case_decide; (done || lia).
  - lia.
  - rewrite Htr2. unfold copy_events. rewrite (proj2 (Nat.ltb_lt _ _) Hpos).
    rewrite <- app_assoc. cbn [app]. do 2 f_equal.
    apply omap_ext_seq. intros j _.
    by rewrite (get_in_block other w b blk j Hd Hb).
Qed.

(** the copy constructor on a well-formed source either builds the copy or
    throws with the heap as it was *)
Lemma Vector_copy_cases other w :
  wf other w = true ->
  (exists v' w', Vector_copy other w = Ok v' w' /\ copied other w v' w') \/
  (exists w', Vector_copy other w = Throw tt w' /\ rolled_back w w').
Proof.
  intros Hwf.
  destruct (Nat.ltb_spec 0 (size_ other)) as [Hpos|Hz].
  2: { left. destruct (Vector_copy_empty other w) as (v' & ? & ?); [lia | eauto]. }
  destruct (alloc_throws (n_alloc w)) eqn:Ha.
  { right. unfold Vector_copy. rewrite (proj2 (Nat.ltb_lt _ _) Hpos).
    rewrite allocate_throw by done. cbn [bind]. eexists. split; [done|]. by split. }
  destruct (first_throw ctor_throws (n_ctor w) (size_ other))
    as [Hok | (k & Hk & Hok & Ht)].
  { left. by apply Vector_copy_ok. }
  right. pose proof Hwf as [Hfresh Hshape]%wf_spec.
  pose proof (heap_fresh_spec _ _ Hfresh (Nat.le_refl _)) as Hbn.
  destruct Hshape as [Hd Hs Hc | b blk Hd Hb Hbs Hc Hall]; [lia|].
  assert (b <> next_block w) as Hne by congruence.
  unfold Vector_copy. rewrite (proj2 (Nat.ltb_lt _ _) Hpos).
  rewrite allocate_ok by done. cbn [bind].
  set (bn := next_block w) in *.
  match goal with |- context [construct_loop _ _ _ _ _ ?w0] => set (w1 := w0) end.
  destruct (construct_loop_throw bn (val_from (data_ other)) (fun j => cells blk !! j)
              (size_ other) 0 0 w1 k) as (w2 & Heq2 & Hcr).
  { done. }
  { subst w1. simpl. rewrite lookup_insert_eq. eauto. }
  { intros j w' _ Hfr. unfold val_from, load, ptr_add. rewrite Hd. simpl.
    rewrite Hfr by done. subst w1. simpl. rewrite lookup_insert_ne by done.
    by rewrite Hb. }
  { intros j Hj. apply Hall. lia. }
  { subst w1. simpl. done. }
  { subst w1. simpl. done. }
  rewrite Heq2. cbn [try_catch bind].
  destruct Hcr as [Hfr2 (blk1 & blk2 & H1 & H2 & Hsz2 & Hc2) Hn2 Ha2 Hct2 Htr2].
  rewrite (deallocate_ok bn _ (count_ctor w2) blk2) by done. cbn [bind].
  eexists. split; [done|]. split; cbn.
  - apply map_eq. intros b'. destruct (decide (b' = bn)) as [->|Hb'].
    + by rewrite lookup_delete_eq.
    + rewrite lookup_delete_ne by done. rewrite Hfr2 by done.
      subst w1. cbn. by rewrite lookup_insert_ne.
  - rewrite Hn2. subst w1. cbn. lia.
Qed.

Lemma copied_get other w v' w' j :
  copied other w v' w' -> j < size_ other -> get v' j w' = get other j w.
Proof.
  intros [_ _ Hd _ Hnew _ _ _] Hj.
  destruct (Hnew ltac:(lia)) as (blk' & Hb' & _ & Hc).
  rewrite (proj2 (Nat.ltb_lt 0 (size_ other))) in Hd by lia.
  rewrite (get_in_block v' w' _ blk' j Hd Hb'), Hc. by case_decide.
Qed.

(** the destructor of a well-formed container returns *)
Lemma Vector_destroy_ok v w :
  storage_shape v w ->
  exists w', Vector_destroy v w = Ok tt w' /\
    (forall b, base (data_ v) <> Some b -> heap w' !! b = heap w !! b) /\
    (forall b, base (data_ v) = Some b -> heap w' !! b = None) /\
    next_block w' = next_block w /\
    trace w' = trace w ++ release_events v.
Proof.
  intros [Hd Hs Hc | b blk Hd Hb Hbs Hc Hall]; unfold Vector_destroy, release_events.
  - rewrite Hd, Hs. cbn. exists w. by rewrite app_nil_r.
  - rewrite Hd. cbn [base].
    destruct (destroy_loop_ok b (size_ v) 0 w blk Hb) as (w1 & -> & Hdr).
    { intros j Hj. apply Hall. lia. }
    destruct Hdr as [Hfr (blk1 & blk1' & H1 & H1' & Hsz & Hcl) Hn Ha Hct Htr].
    cbn [bind]. rewrite (deallocate_ok b _ w1 blk1' H1').
    eexists. split; [done|]. cbn. repeat split.
    + intros b' Hb'. rewrite lookup_delete_ne by congruence. apply Hfr. congruence.
    + intros b' [= <-]. apply lookup_delete_eq.
    + done.
    + rewrite Htr. by rewrite <- app_assoc.
Qed.

Lemma storage_shape_frame v w w' :
  storage_shape v w ->
  (forall b, base (data_ v) = Some b -> heap w' !! b = heap w !! b) ->
  storage_shape (MkVector (data_ v) (size_ v) (capacity_ v)) w'.
Proof.
  intros [Hd Hs Hc | b blk Hd Hb Hbs Hc Hall] Hfr.
  - by apply shape_null.
  - eapply shape_block; eauto. rewrite Hfr; [done|]. by rewrite Hd.
Qed.

(** once the copy is built, the exchange and the destruction of the old
    storage cannot fail *)
Lemma copy_assign_after_copy this other w tmp w1 :
  wf this w = true ->
  Vector_copy other w = Ok tmp w1 -> copied other w tmp w1 ->
  exists v' w',
    copy_assign this other w = Ok v' w' /\
    size_ v' = size_ other /\
    (forall i, i < size_ other -> get v' i w' = get other i w) /\
    trace w' = trace w ++ copy_events (next_block w) other w ++ release_events this.
Proof.
  intros [Hfresh Hshape]%wf_spec Heq Hcp. unfold copy_assign. rewrite Heq.
  pose proof (heap_fresh_spec _ _ Hfresh (Nat.le_refl _)) as Hbn.
  cbn [rethrow bind].
  assert (forall b, base (data_ this) = Some b -> b <> next_block w) as Hne.
  { intros b Hb ->. destruct Hshape as [Hd _ _ | b' blk Hd Hb' _ _ _].
    - by rewrite Hd in Hb.
    - rewrite Hd in Hb. injection Hb as ->. congruence. }
  destruct (Vector_destroy_ok (MkVector (data_ this) (size_ this) (capacity_ this)) w1)
    as (w2 & -> & Hfr & Hgone & Hnx & Htr).
  { apply (storage_shape_frame this w w1); [done|]. intros b Hb.
    apply (cp_frame _ _ _ _ Hcp). by apply Hne. }
  cbn [rethrow bind size_ data_] in *. eexists _, _. split; [done|].
  cbn [size_]. split; [apply (cp_size _ _ _ _ Hcp)|]. split.
  - intros i Hi. rewrite <- (copied_get _ _ _ _ i Hcp Hi).
    apply get_frame; [done|]. intros b Hb. apply Hfr.
    rewrite (cp_data _ _ _ _ Hcp) in Hb. intros Hb'.
    destruct (Nat.ltb 0 (size_ other)); [|done].
    injection Hb as <-. by eapply Hne.
  - rewrite Htr, (cp_trace _ _ _ _ Hcp). by rewrite <- app_assoc.
Qed.

Lemma copy_assign_spec this other w :
  wf this w = true -> wf other w = true ->
  match copy_assign this other w with
  | Ok v' w' =>
      size_ v' = size_ other /\
      (forall i, i < size_ other -> get v' i w' = get other i w) /\
      trace w' = trace w ++ copy_events (next_block w) other w ++ release_events this
  | Throw v' w' => v' = this /\ heap w' = heap w
  | Undefined => False
  end.
Proof.
  intros Hwf Hwfo.
  destruct (Vector_copy_cases other w Hwfo) as [(tmp & w1 & Heq & Hcp) | (w1 & Heq & Hrb)].
  - destruct (copy_assign_after_copy this other w tmp w1 Hwf Heq Hcp)
      as (v' & w' & -> & H). exact H.
  - unfold copy_assign. rewrite Heq. cbn [rethrow bind]. destruct Hrb. done.
Qed.

Lemma copy_assign_returns this other w :
  wf this w = true -> wf other w = true ->
  alloc_throws (n_alloc w) = false ->
  (forall j, j < size_ other -> ctor_throws (n_ctor w + j) = false) ->
  exists v' w', copy_assign this other w = Ok v' w'.
Proof.
  intros Hwf Hwfo Ha Hct.
  destruct (Vector_copy_ok other w Hwfo Ha Hct) as (tmp & w1 & Heq & Hcp).
  destruct (copy_assign_after_copy this other w tmp w1 Hwf Heq Hcp)
    as (v' & w' & -> & _). eauto.
Qed.

(** C8: copy-assignment builds the full copy of the source before anything
    of the target changes.  On return the target holds the source's
    length and element values, and the allocator events are those of the
    copy followed by those of releasing the old storage; assignment of a
    Vector to itself leaves its length and element values as they were;
    and when the copy throws, the target's fields (length, capacity,
    storage) and the heap, hence every element value, are untouched. *)
Theorem copy_assign_copies_first this other w :
  wf this w = true -> wf other w = true ->
  match copy_assign this other w with
  | Ok v' w' =>
      size_ v' = size_ other /\
      (forall i, i < size_ other -> get v' i w' = get other i w) /\
      trace w' = trace w ++ copy_events (next_block w) other w ++ release_events this
  | Throw v' w' =>
      size_ v' = size_ this /\ capacity_ v' = capacity_ this /\
      data_ v' = data_ this /\ heap w' = heap w /\
      (forall i, get v' i w' = get this i w)
  | Undefined => False
  end /\
  match copy_assign this this w with
  | Ok v' w' =>
      size_ v' = size_ this /\
      (forall i, i < size_ this -> get v' i w' = get this i w)
  | Throw v' w' => v' = this /\ heap w' = heap w
  | Undefined => False
  end /\
  (alloc_throws (n_alloc w) = false ->
   (forall j, j < size_ other -> ctor_throws (n_ctor w + j) = false) ->
   exists v' w', copy_assign this other w = Ok v' w').
Proof.
  intros Hwf Hwfo. split; [|split].
  - pose proof (copy_assign_spec this other w Hwf Hwfo) as H.
    destruct (copy_assign this other w) as [v' w' | v' w' |]; [done | | done].
    destruct H as [-> Hh]. repeat split; [done|].
    intros i. apply get_frame; [done|]. intros b _. by rewrite Hh.
  - pose proof (copy_assign_spec this this w Hwf Hwf) as H.
    destruct (copy_assign this this w) as [v' w' | v' w' |]; [|done..].
    destruct H as (? & ? & _). done.
  - by apply copy_assign_returns.
Qed.

(** ** Well-formedness is an invariant of the public interface *)

Lemma wf_intro v w : heap_fresh w = true -> storage_shape v w -> wf v w = true.
Proof. intros. by apply wf_spec. Qed.

Lemma heap_fresh_update w w' b :
  heap_fresh w = true -> is_Some (heap w !! b) ->
  (forall b', b' <> b -> heap w' !! b' = heap w !! b') ->
  next_block w' = next_block w ->
  heap_fresh w' = true.
Proof.
  intros Hf [blk Hb] Hfr Hn. apply heap_fresh_intro. intros b' Hb'. rewrite Hn in Hb'.
  destruct (decide (b' = b)) as [->|Hne].
  - rewrite (heap_fresh_spec _ _ Hf Hb') in Hb. done.
  - rewrite Hfr by done. by apply heap_fresh_spec.
Qed.

(** constructing elements somewhere keeps a container well formed *)
Lemma constructed_range_wf v w w' b i k g :
  wf v w = true -> constructed_range b i k g w w' ->
  (forall j, i <= j < i + k -> is_Some (g j)) ->
  wf v w' = true.
Proof.
  intros [Hf Hs]%wf_spec [Hfr (blk & blk' & Hb & Hb' & Hsz & Hc) Hn _ _ _] Hg.
  apply wf_intro; [by eapply heap_fresh_update; eauto|].
  destruct Hs as [Hd Hs Hcap | bv blkv Hd Hbv Hbs Hcap Hall]; [by apply shape_null|].
  destruct (decide (bv = b)) as [->|Hne].
  - rewrite Hb in Hbv. injection Hbv as <-.
    eapply shape_block; eauto; [congruence|]. intros j Hj. rewrite Hc.
    case_decide; [by apply Hg | by apply Hall].
  - eapply shape_block; eauto. by rewrite Hfr.
Qed.

(** constructing [k] elements after the last one extends the container *)
Lemma constructed_range_wf_grow v w w' b k g :
  wf v w = true -> data_ v = MkPtr (Some b) 0 ->
  constructed_range b (size_ v) k g w w' ->
  (forall j, size_ v <= j < size_ v + k -> is_Some (g j)) ->
  wf (MkVector (data_ v) (size_ v + k) (capacity_ v)) w' = true.
Proof.
  intros [Hf Hs]%wf_spec Hd [Hfr (blk & blk' & Hb & Hb' & Hsz & Hc) Hn _ _ _] Hg.
  apply wf_intro; [by eapply heap_fresh_update; eauto|].
  destruct Hs as [Hd' _ _ | bv blkv Hd' Hbv Hbs Hcap Hall]; [by rewrite Hd in Hd'|].
  rewrite Hd in Hd'. injection Hd' as <-. rewrite Hb in Hbv. injection Hbv as <-.
  eapply shape_block; cbn [data_ size_ capacity_]; eauto; [congruence|].
  intros j Hj. rewrite Hc. case_decide; [by apply Hg | apply Hall; lia].
Qed.

(** destroying the elements from slot [i] on truncates the container *)
Lemma destroyed_range_wf v w w' b i :
  wf v w = true -> data_ v = MkPtr (Some b) 0 -> i <= size_ v ->
  destroyed_range b i (size_ v - i) w w' ->
  wf (MkVector (data_ v) i (capacity_ v)) w' = true.
Proof.
  intros [Hf Hs]%wf_spec Hd Hi [Hfr (blk & blk' & Hb & Hb' & Hsz & Hc) Hn _ _ _].
  apply wf_intro; [by eapply heap_fresh_update; eauto|].
  destruct Hs as [Hd' _ _ | bv blkv Hd' Hbv Hbs Hcap Hall]; [by rewrite Hd in Hd'|].
  rewrite Hd in Hd'. injection Hd' as <-. rewrite Hb in Hbv. injection Hbv as <-.
  eapply shape_block; cbn [data_ size_ capacity_]; eauto; [congruence|].
  intros j Hj. rewrite Hc. case_decide; [lia | apply Hall; lia].
Qed.

Lemma count_ctor_wf v w : wf v w = true -> wf v (count_ctor w) = true.
Proof. apply rolled_back_wf. by split. Qed.

(** a full container that is not empty, or one with spare capacity, has a
    block *)
Lemma wf_block v w :
  wf v w = true -> capacity_ v <> 0 ->
  exists b blk, data_ v = MkPtr (Some b) 0 /\ heap w !! b = Some blk.
Proof.
  intros [_ Hs]%wf_spec Hc.
  destruct Hs as [_ _ Hcap | b blk Hd Hb _ _ _]; [done | eauto].
Qed.

(** the construction loop of [resize] on a container with a block *)
Lemma resize_loop_cases v w val x k c :
  wf v w = true -> capacity_ v <> 0 ->
  (forall j w', val j w' = Some x) ->
  match construct_loop (data_ v) val (size_ v) k c w with
  | Ok _ w' => wf (MkVector (data_ v) (size_ v + k) (capacity_ v)) w' = true
  | Throw _ w' => wf v w' = true
  | Undefined => False
  end.
Proof.
  intros Hwf Hcap Hval.
  destruct (wf_block v w Hwf Hcap) as (b & blk & Hd & Hb). rewrite Hd.
  destruct (first_throw ctor_throws (n_ctor w) k) as [Hok | (i & Hi & Hok & Ht)].
  - destruct (construct_loop_ok b val (fun _ => Some x) k (size_ v) c w)
      as (w' & -> & Hcr); eauto.
    rewrite <- Hd. eapply constructed_range_wf_grow; eauto.
  - destruct (construct_loop_throw b val (fun _ => Some x) k (size_ v) c w i)
      as (w' & -> & Hcr); eauto.
    apply count_ctor_wf. eapply constructed_range_wf; eauto.
Qed.

Lemma reserve_more_wf n v w :
  wf v w = true -> n <> 0 ->
  match reserve_more n v w with
  | Ok v' w' => wf v' w' = true /\ size_ v' = size_ v /\ capacity_ v' = n
  | Throw v' w' => v' = v /\ wf v w' = true
  | Undefined => False
  end.
Proof.
  intros Hwf Hn.
  destruct (reserve_more_cases n v w Hwf) as [(v' & w' & -> & Hra) | (w' & -> & Hrb)].
  - split; [by eapply reallocated_wf|]. by destruct Hra as [-> _ _ _ _ _ _ _].
  - split; [done|]. by eapply rolled_back_wf.
Qed.

Lemma emplace_back_wf x v w :
  wf v w = true ->
  match emplace_back x v w with
  | Ok v' w' | Throw v' w' => wf v' w' = true
  | Undefined => False
  end.
Proof.
  intros Hwf. unfold emplace_back.
  assert (forall v1 w1, wf v1 w1 = true -> capacity_ v1 <> 0 ->
    match (let* _ := rethrow (fun _ => v1) (construct (ptr_add (data_ v1) (size_ v1)) x w1) in
           Ok (E := Vector) (MkVector (data_ v1) (S (size_ v1)) (capacity_ v1))) with
    | Ok v' w' | Throw v' w' => wf v' w' = true
    | Undefined => False
    end) as Hstep.
  { intros v1 w1 Hwf1 Hcap.
    destruct (wf_block v1 w1 Hwf1 Hcap) as (b & blk & Hd & Hb).
    rewrite Hd. unfold ptr_add. cbn [base off Nat.add].
    destruct (ctor_throws (n_ctor w1)) eqn:Ect.
    - rewrite (construct_throw _ _ _ _ _ Hb Ect). cbn [rethrow bind].
      by apply count_ctor_wf.
    - rewrite (construct_ok _ _ _ _ _ Hb Ect). cbn [rethrow bind].
      rewrite <- Hd. replace (S (size_ v1)) with (size_ v1 + 1) by lia.
      eapply (constructed_range_wf_grow v1 w1 _ b 1 (fun _ => Some x)); eauto.
      eapply constructed_range_step; eauto.
      eapply constructed_range_refl. cbn. apply lookup_insert_eq. }
  destruct (Nat.eqb_spec (size_ v) (capacity_ v)) as [Heq|Hne].
  - pose proof (reserve_more_wf (new_capacity (capacity_ v)) v w Hwf
                  (new_capacity_nonzero _)) as Hrm.
    destruct (reserve_more _ v w) as [v1 w1 | v1 w1 |]; cbn [bind]; [| |done].
    + destruct Hrm as (Hwf1 & _ & Hc). apply Hstep; [done|].
      rewrite Hc. apply new_capacity_nonzero.
    + by destruct Hrm as [-> ?].
  - cbn [bind]. apply Hstep; [done|].
    intros Hc. apply wf_spec in Hwf as [_ [_ Hs _ | ? ? _ _ _ ? _]]; lia.
Qed.

Lemma resize_with_wf val x count v w :
  (forall j w', val j w' = Some x) ->
  wf v w = true ->
  match resize_with val count v w with
  | Ok v' w' | Throw v' w' => wf v' w' = true
  | Undefined => False
  end.
Proof.
  intros Hval Hwf. unfold resize_with.
  destruct (Nat.ltb_spec count (size_ v)) as [Hlt|Hge].
  - pose proof Hwf as [_ [? Hs ? | b blk Hd Hb Hbs Hc Hall]]%wf_spec; [lia|].
    rewrite Hd.
    destruct (destroy_loop_ok b (size_ v - count) count w blk Hb) as (w' & -> & Hdr).
    { intros j Hj. apply Hall. lia. }
    cbn [rethrow bind]. rewrite <- Hd.
    eapply (destroyed_range_wf v w _ b); eauto. lia.
  - destruct (Nat.ltb_spec (size_ v) count) as [Hgt|]; [|done].
    assert (forall v1 w1, wf v1 w1 = true -> capacity_ v1 <> 0 -> size_ v1 = size_ v ->
      match (let* _ := rethrow (fun _ => v1)
                         (construct_loop (data_ v1) val (size_ v1) (count - size_ v1) 0 w1) in
             Ok (E := Vector) (MkVector (data_ v1) count (capacity_ v1))) with
      | Ok v' w' | Throw v' w' => wf v' w' = true
      | Undefined => False
      end) as Hstep.
    { intros v1 w1 Hwf1 Hcap Hsz.
      pose proof (resize_loop_cases v1 w1 val x (count - size_ v1) 0 Hwf1 Hcap Hval) as Hl.
      destruct (construct_loop _ val _ _ 0 w1) as [[] w2 | e w2 |]; cbn [rethrow bind];
        [|done..].
      replace (size_ v1 + (count - size_ v1)) with count in Hl by lia. done. }
    destruct (Nat.ltb_spec (capacity_ v) count) as [Hcap|Hcap].
    + pose proof (reserve_more_wf count v w Hwf ltac:(lia)) as Hrm.
      destruct (reserve_more count v w) as [v1 w1 | v1 w1 |]; cbn [bind]; [| |done].
      * destruct Hrm as (Hwf1 & Hs1 & Hc1). apply Hstep; [done | lia | done].
      * by destruct Hrm as [-> ?].
    + cbn [bind]. apply Hstep; [done | lia | done].
Qed.

(** every call of the public interface takes a well-formed state to a
    well-formed state, whether it returns or throws, and none of them has
    an undefined outcome *)
Theorem run_wf c v w :
  wf v w = true ->
  match run c v w with
  | Ok v' w' | Throw v' w' => wf v' w' = true
  | Undefined => False
  end.
Proof.
  intros Hwf. destruct c as [x | x | | n | | n | n x |]; cbn [run].
  - by apply emplace_back_wf.
  - by apply emplace_back_wf.
  - unfold pop_back. destruct (Nat.ltb_spec 0 (size_ v)) as [Hpos|]; [|done].
    pose proof Hwf as [_ [? Hs ? | b blk Hd Hb Hbs Hc Hall]]%wf_spec; [lia|].
    cbn [data_ size_]. rewrite Hd. unfold ptr_add. cbn [base off Nat.add].
    destruct (Hall (size_ v - 1)) as [y Hy]; [lia|].
    rewrite (destroy_ok _ _ _ _ _ Hb Hy). cbn [rethrow bind].
    rewrite <- Hd. eapply (destroyed_range_wf v w _ b); eauto; [lia|].
    replace (size_ v - (size_ v - 1)) with 1 by lia.
    destruct (destroy_loop_ok b 1 (size_ v - 1) w blk Hb) as (w' & Heq & Hdr).
    { intros j Hj. apply Hall. lia. }
    cbn [destroy_loop] in Heq. unfold ptr_add in Heq. cbn [base off Nat.add] in Heq.
    rewrite (destroy_ok _ _ _ _ _ Hb Hy) in Heq. cbn [bind] in Heq.
    by injection Heq as <-.
  - unfold reserve. destruct (Nat.ltb_spec (capacity_ v) n) as [Hlt|]; [|done].
    pose proof (reserve_more_wf n v w Hwf ltac:(lia)) as Hrm.
    destruct (reserve_more n v w) as [v1 w1 | v1 w1 |]; [| |done].
    + by destruct Hrm.
    + by destruct Hrm as [-> ?].
  - unfold shrink_to_fit. destruct (Nat.ltb_spec (size_ v) (capacity_ v)) as [Hlt|]; [|done].
    destruct (Nat.eqb_spec (size_ v) 0) as [Hz|Hnz].
    + pose proof Hwf as [Hf [? ? ? | b blk Hd Hb Hbs Hc Hall]]%wf_spec; [lia|].
      rewrite Hd, (deallocate_ok b _ w blk Hb). cbn [rethrow bind].
      apply wf_intro.
      * apply heap_fresh_intro. cbn. intros b' Hb'.
        destruct (decide (b' = b)) as [->|Hne]; [apply lookup_delete_eq|].
        rewrite lookup_delete_ne by done. by apply heap_fresh_spec.
      * by apply shape_null.
    + pose proof (reserve_more_wf (size_ v) v w Hwf Hnz) as Hrm.
      destruct (reserve_more (size_ v) v w) as [v1 w1 | v1 w1 |]; [| |done].
      * by destruct Hrm.
      * by destruct Hrm as [-> ?].
  - rewrite resize_eq. apply (resize_with_wf val_default dflt); [done | done].
  - rewrite resize_value_eq. apply (resize_with_wf (val_const x) x); [done | done].
  - unfold clear.
    pose proof Hwf as [Hf [Hd Hs Hc | b blk Hd Hb Hbs Hc Hall]]%wf_spec.
    + rewrite Hd, Hs. cbn. rewrite <- Hd.
      apply wf_intro; [done|]. by apply shape_null.
    + rewrite Hd.
      destruct (destroy_loop_ok b (size_ v) 0 w blk Hb) as (w' & -> & Hdr).
      { intros j Hj. apply Hall. lia. }
      cbn [rethrow bind]. rewrite <- Hd.
      eapply (destroyed_range_wf v w _ b); eauto; [lia|].
      by rewrite Nat.sub_0_r.
Qed.

(** ** Every reachable state is well formed *)

Lemma World_init_fresh : heap_fresh (@World_init T) = true.
Proof. apply heap_fresh_intro. intros b _. apply lookup_empty. Qed.




(** ** How far the two defects reach *)

(** Once the capacity is 1 it stays 1: a full container of one element is
    "grown" to one slot, and a container with more elements than slots is
    never full again. *)
Lemma emplace_back_stuck x v w :
  (forall k, ctor_throws k = false) -> (forall k, alloc_throws k = false) ->
  wf v w = true -> capacity_ v = 1 -> 1 <= size_ v ->
  exists v' w',
    emplace_back x v w = Ok v' w' /\ wf v' w' = true /\
    capacity_ v' = 1 /\ size_ v' = S (size_ v).
Proof.
  intros Hct Hal Hwf Hcap Hsz.
  pose proof (emplace_back_wf x v w Hwf) as Hw.
  destruct (decide (size_ v = capacity_ v)) as [Heq|Hne].
  - destruct (emplace_back_full_cases v w x Hwf Heq) as [H1 H2].
    destruct H2 as (v' & w' & He); [done | done |].
    rewrite He in *. destruct H1 as (Hc & Hs & _).
    exists v', w'. rewrite Hcap in Hc. done.
  - unfold emplace_back in *. rewrite (proj2 (Nat.eqb_neq _ _) Hne) in *.
    cbn [bind] in *.
    destruct (wf_block v w Hwf ltac:(lia)) as (b & blk & Hd & Hb).
    rewrite Hd in *. unfold ptr_add in *. cbn [base off Nat.add] in *.
    rewrite (construct_ok _ _ _ _ _ Hb (Hct _)) in *. cbn [rethrow bind] in *.
    eexists _, _. split; [done|]. done.
Qed.

Lemma push_all_stuck xs : forall v w,
  (forall k, ctor_throws k = false) -> (forall k, alloc_throws k = false) ->
  wf v w = true -> capacity_ v = 1 -> 1 <= size_ v ->
  exists v' w',
    push_all xs v w = Ok v' w' /\ capacity_ v' = 1 /\ size_ v' = size_ v + length xs.
Proof.
  induction xs as [|x xs IH]; intros v w Hct Hal Hwf Hcap Hsz; cbn [push_all length].
  - exists v, w. repeat split; (done || lia).
  - unfold push_back.
    destruct (emplace_back_stuck x v w Hct Hal Hwf Hcap Hsz)
      as (v1 & w1 & -> & Hwf1 & Hc1 & Hs1).
    cbn [bind].
    destruct (IH v1 w1 Hct Hal Hwf1 Hc1 ltac:(lia)) as (v' & w' & -> & Hc' & Hs').
    exists v', w'. repeat split; (done || lia).
Qed.

(** with elements and an allocator that never throw, any number of appends
    to an empty container returns with the length equal to that number and
    the capacity equal to 1 *)
Lemma appends_keep_capacity_one xs :
  (forall k, ctor_throws k = false) -> (forall k, alloc_throws k = false) ->
  xs <> [] ->
  exists v w,
    push_all xs Vector_default World_init = Ok v w /\
    size_ v = length xs /\ capacity_ v = 1.
Proof.
  intros Hct Hal Hxs. destruct xs as [|x xs]; [done|]. cbn [push_all length].
  assert (wf Vector_default (@World_init T) = true) as Hwf0.
  { apply wf_intro; [apply World_init_fresh|]. by apply shape_null. }
  pose proof (emplace_back_wf x Vector_default World_init Hwf0) as Hw.
  destruct (emplace_back_full_cases Vector_default World_init x Hwf0 eq_refl) as [H1 H2].
  destruct H2 as (v1 & w1 & He); [done | done |].
  unfold push_back. rewrite He in *. cbn [bind]. destruct H1 as (Hc & Hs & _).
  destruct (push_all_stuck xs v1 w1 Hct Hal Hw Hc ltac:(cbn in Hs; lia))
    as (v' & w' & -> & Hc' & Hs').
  exists v', w'. repeat split; [|done]. cbn in Hs. lia.
Qed.

(** When construction number [i] of a sized constructor throws, the
    allocator sees the allocation, [i] constructions and the release of
    the block, and no destruction. *)
Lemma sized_ctor_throw_events val x n i w :
  (forall j w', val j w' = Some x) ->
  heap_fresh w = true ->
  alloc_throws (n_alloc w) = false ->
  i < n ->
  (forall j, j < i -> ctor_throws (n_ctor w + j) = false) ->
  ctor_throws (n_ctor w + i) = true ->
  exists w',
    (if Nat.ltb 0 n then
       let* data := allocate n w in fun w =>
       try_catch
         (let* _ := construct_loop data val 0 n 0 w in
          Ok (MkVector data n n))
         (fun _ w =>
          let* _ := deallocate data n w in
          Throw tt)
     else Ok (MkVector nullptr n n) w) = Throw tt w' /\
    heap w' = heap w /\
    trace w' = trace w ++ EvAllocate (next_block w) n
                 :: ((fun j => EvConstruct (next_block w) j x) <$> seq 0 i)
                 ++ [EvDeallocate (next_block w) n].
Proof.
  intros Hval Hf Ha Hi Hok Ht.
  pose proof (heap_fresh_spec _ _ Hf (Nat.le_refl _)) as Hbn.
  rewrite (proj2 (Nat.ltb_lt 0 n)) by lia.
  rewrite allocate_ok by done. cbn [bind].
  set (bn := next_block w) in *.
  match goal with |- context [construct_loop _ _ _ _ _ ?w0] => set (w1 := w0) end.
  destruct (construct_loop_throw bn val (fun _ => Some x) n 0 0 w1 i)
    as (w2 & -> & Hcr); eauto.
  { subst w1. cbn. rewrite lookup_insert_eq. eauto. }
  destruct Hcr as [Hfr2 (blk1 & blk2 & H1 & H2 & Hsz2 & Hc2) Hn2 Ha2 Hct2 Htr2].
  cbn [try_catch bind].
  rewrite (deallocate_ok bn _ (count_ctor w2) blk2) by done. cbn [bind].
  eexists. split; [done|]. cbn. split.
  - apply map_eq. intros b'. destruct (decide (b' = bn)) as [->|Hb'].
    + by rewrite lookup_delete_eq.
    + rewrite lookup_delete_ne by done. rewrite Hfr2 by done.
      subst w1. cbn. by rewrite lookup_insert_ne.
  - rewrite Htr2. subst w1. cbn [trace]. rewrite <- !app_assoc. cbn [app].
    do 2 f_equal.
Qed.

(** ** Iterators, move construction, resizing to the same length *)

(** C6: for every Vector, [cend()] is the cursor [cbegin()] (and compares
    equal to the mutable [begin()]), not the cursor one past the last
    element that [end()] returns; so for every non-empty Vector
    [cend() != end()]. *)
Theorem cend_is_begin_not_end v :
  0 < size_ v ->
  cend v = cbegin v /\
  ConstIterator_eq_mut (cend v) (begin v) = true /\
  ConstIterator_ne_mut (cend v) (end_ v) = true /\
  ConstIterator_eq_mut (cend v) (end_ v) = false.
Proof.
  intros Hpos.
  unfold cend, cbegin, begin, end_, ConstIterator_eq_mut, ConstIterator_ne_mut, ptr_eqb,
    ptr_add.
  cbn [cit_ptr_ it_ptr_ base off].
  rewrite !bool_decide_eq_true_2 by done. rewrite Nat.eqb_refl.
  rewrite (proj2 (Nat.eqb_neq _ _)) by lia. done.
Qed.

(** for every Vector, empty or not, [cend()] is [cbegin()] *)
Lemma cend_is_cbegin v : cend v = cbegin v.
Proof. done. Qed.

(** C7: after move-constructing [B] from [A], [B] has [A]'s former length,
    capacity, storage and so element values, and [A] has length 0,
    capacity 0 and no storage; destroying what is left of [A] touches
    nothing. *)
Theorem move_leaves_source_empty (a : Vector) :
  size_ (fst (Vector_move a)) = size_ a /\
  capacity_ (fst (Vector_move a)) = capacity_ a /\
  data_ (fst (Vector_move a)) = data_ a /\
  (forall w i, get (fst (Vector_move a)) i w = get a i w) /\
  size_ (snd (Vector_move a)) = 0 /\
  capacity_ (snd (Vector_move a)) = 0 /\
  data_ (snd (Vector_move a)) = nullptr /\
  (forall w, Vector_destroy (snd (Vector_move a)) w = Ok tt w).
Proof. repeat split. Qed.

(** C10: for every Vector, [resize(count)] and [resize(count, value)] with
    [count] equal to the current length return with the container and the
    whole heap state as they were: no allocator call is made, so no
    element is destroyed or constructed. *)
Theorem resize_to_same_length v w x :
  resize (size_ v) v w = Ok v w /\ resize_value (size_ v) x v w = Ok v w.
Proof.
  unfold resize, resize_value. by rewrite Nat.ltb_irrefl.
Qed.

(** ** A call touches only the storage of its own container *)

Lemma keeps_refl N own w : keeps N own w w.
Proof. unfold keeps. by split. Qed.

Lemma keeps_trans N own w1 w2 w3 :
  keeps N own w1 w2 -> keeps N own w2 w3 -> keeps N own w1 w3.
Proof.
  unfold keeps. intros [Hn1 H1] [Hn2 H2]. split; [lia|].
  intros b Hb Ho. rewrite H2, H1; done.
Qed.

Lemma points_within_add N own p i :
  points_within N own p -> points_within N own (ptr_add p i).
Proof. done. Qed.

Lemma construct_keeps N own p x w :
  points_within N own p ->
  match construct p x w with
  | Ok _ w' | Throw _ w' => keeps N own w w'
  | Undefined => True
  end.
Proof.
  intros Hp. unfold keeps, construct. destruct (base p) as [b|] eqn:Eb; [|done].
  destruct (heap w !! b); [|done]. destruct (ctor_throws _); [by split|].
  split; [done|]. cbn. intros b' Hb' Ho. apply lookup_insert_ne.
  intros ->. apply Ho. by apply Hp.
Qed.

Lemma destroy_keeps N own p w :
  points_within N own p ->
  match destroy p w with
  | Ok _ w' | Throw _ w' => keeps N own w w'
  | Undefined => True
  end.
Proof.
  intros Hp. unfold keeps, destroy. destruct (base p) as [b|] eqn:Eb; [|done].
  destruct (heap w !! b) as [blk|]; [|done]. destruct (cells blk !! off p); [|done].
  split; [done|]. cbn. intros b' Hb' Ho. apply lookup_insert_ne.
  intros ->. apply Ho. by apply Hp.
Qed.

Lemma deallocate_keeps N own p n w :
  points_within N own p ->
  match deallocate p n w with
  | Ok _ w' | Throw _ w' => keeps N own w w'
  | Undefined => True
  end.
Proof.
  intros Hp. unfold keeps, deallocate. destruct (base p) as [b|] eqn:Eb; [|by split].
  destruct (heap w !! b); [|done]. destruct (Nat.eqb (off p) 0); [|done].
  split; [done|]. cbn. intros b' Hb' Ho. apply lookup_delete_ne.
  intros ->. apply Ho. by apply Hp.
Qed.

Lemma construct_loop_keeps N own dst val : forall n i c w,
  points_within N own dst ->
  match construct_loop dst val i n c w with
  | Ok _ w' | Throw _ w' => keeps N own w w'
  | Undefined => True
  end.
Proof.
  induction n as [|n IH]; intros i c w Hp; cbn [construct_loop]; [apply keeps_refl|].
  destruct (val i w) as [x|]; [|done].
  pose proof (construct_keeps N own (ptr_add dst i) x w Hp) as H1.
  destruct (construct _ x w) as [[] w1 | [] w1 |]; cbn [rethrow bind]; [|done..].
  specialize (IH (S i) (S c) w1 Hp).
  destruct (construct_loop dst val (S i) n (S c) w1); [by eapply keeps_trans..|done].
Qed.

Lemma destroy_loop_keeps N own p : forall n i w,
  points_within N own p ->
  match destroy_loop p i n w with
  | Ok _ w' | Throw _ w' => keeps N own w w'
  | Undefined => True
  end.
Proof.
  induction n as [|n IH]; intros i w Hp; cbn [destroy_loop]; [apply keeps_refl|].
  pose proof (destroy_keeps N own (ptr_add p i) w Hp) as H1.
  destruct (destroy _ w) as [[] w1 | [] w1 |]; cbn [bind]; [|done..].
  specialize (IH (S i) w1 Hp).
  destruct (destroy_loop p (S i) n w1); [by eapply keeps_trans..|done].
Qed.

Lemma allocate_keeps N own n w :
  N <= next_block w ->
  match allocate n w with
  | Ok p w' => keeps N own w w' /\ points_within N own p /\ N <= next_block w'
  | Throw _ w' => keeps N own w w' /\ N <= next_block w'
  | Undefined => True
  end.
Proof.
  intros HN. unfold keeps, allocate. destruct (alloc_throws _).
  { cbn. split; [split; [lia | intros; reflexivity] | lia]. }
  cbn. split; [split|split]; cbn; try lia.
  - intros b Hb _. apply lookup_insert_ne. lia.
  - intros b [= <-] Hb. lia.
Qed.

Lemma keeps_next N own w w' : keeps N own w w' -> N <= next_block w -> N <= next_block w'.
Proof. intros [H _] ?. lia. Qed.

(** destructors and [operator delete] do not throw *)
Lemma destroy_no_throw p w e w' : destroy p w <> Throw e w'.
Proof.
  unfold destroy. destruct (base p); [|done]. destruct (heap w !! _) as [blk|]; [|done].
  by destruct (cells blk !! _).
Qed.

Lemma deallocate_no_throw p n w e w' : deallocate p n w <> Throw e w'.
Proof.
  unfold deallocate. destruct (base p); [|done]. destruct (heap w !! _); [|done].
  by destruct (Nat.eqb _ 0).
Qed.

Lemma destroy_loop_no_throw p : forall n i w e w', destroy_loop p i n w <> Throw e w'.
Proof.
  induction n as [|n IH]; intros i w e w'; cbn [destroy_loop]; [done|].
  destruct (destroy (ptr_add p i) w) as [[] w1 | e1 w1 |] eqn:E; cbn [bind]; [|by apply destroy_no_throw in E|done].
  apply IH.
Qed.

Lemma Vector_destroy_no_throw v w e w' : Vector_destroy v w <> Throw e w'.
Proof.
  unfold Vector_destroy.
  destruct (destroy_loop (data_ v) 0 (size_ v) w) as [[] w1 | e1 w1 |] eqn:E; cbn [bind];
    [|by apply destroy_loop_no_throw in E|done].
  apply deallocate_no_throw.
Qed.

Lemma reserve_more_keeps N own n v w :
  N <= next_block w -> points_within N own (data_ v) ->
  match reserve_more n v w with
  | Ok v' w' => keeps N own w w' /\ points_within N own (data_ v')
  | Throw v' w' => keeps N own w w' /\ v' = v
  | Undefined => True
  end.
Proof.
  intros HN Hown. unfold reserve_more.
  pose proof (allocate_keeps N own n w HN) as Ha.
  destruct (allocate n w) as [nd w1 | [] w1 |]; cbn [rethrow bind]; [| by destruct Ha | done].
  destruct Ha as (K1 & Hnd & HN1).
  pose proof (construct_loop_keeps N own nd (val_from (data_ v)) (size_ v) 0 0 w1 Hnd) as K2.
  destruct (construct_loop nd _ 0 (size_ v) 0 w1) as [[] w2 | k w2 |];
    cbn [try_catch bind]; [| |done].
  - pose proof (destroy_loop_keeps N own (data_ v) (size_ v) 0 w2 Hown) as K3.
    destruct (destroy_loop (data_ v) 0 (size_ v) w2) as [[] w3 | [] w3 |] eqn:E3;
      cbn [rethrow bind]; [|by apply destroy_loop_no_throw in E3|done].
    pose proof (deallocate_keeps N own (data_ v) (capacity_ v) w3 Hown) as K4.
    destruct (deallocate (data_ v) (capacity_ v) w3) as [[] w4 | [] w4 |] eqn:E4;
      cbn [rethrow bind]; [|by apply deallocate_no_throw in E4|done].
    split; [|done]. eauto using keeps_trans.
  - pose proof (destroy_loop_keeps N own nd k 0 w2 Hnd) as K3.
    destruct (destroy_loop nd 0 k w2) as [[] w3 | [] w3 |] eqn:E3;
      cbn [rethrow bind]; [|by apply destroy_loop_no_throw in E3|done].
    pose proof (deallocate_keeps N own nd n w3 Hnd) as K4.
    destruct (deallocate nd n w3) as [[] w4 | [] w4 |] eqn:E4;
      cbn [rethrow bind]; [|by apply deallocate_no_throw in E4|done].
    split; [|done]. eauto using keeps_trans.
Qed.

Lemma resize_with_keeps N own val count v w :
  N <= next_block w -> points_within N own (data_ v) ->
  match resize_with val count v w with
  | Ok v' w' | Throw v' w' => keeps N own w w' /\ points_within N own (data_ v')
  | Undefined => True
  end.
Proof.
  intros HN Hown. unfold resize_with. destruct (Nat.ltb count (size_ v)).
  - pose proof (destroy_loop_keeps N own (data_ v) (size_ v - count) count w Hown) as K.
    destruct (destroy_loop _ count _ w) as [[] w1 | [] w1 |]; cbn [rethrow bind]; done.
  - destruct (Nat.ltb (size_ v) count); [|by split; [apply keeps_refl|]].
    assert (forall v1 w1, keeps N own w w1 -> points_within N own (data_ v1) ->
      match (let* _ := rethrow (fun _ => v1)
                         (construct_loop (data_ v1) val (size_ v1) (count - size_ v1) 0 w1) in
             Ok (E := Vector) (MkVector (data_ v1) count (capacity_ v1))) with
      | Ok v' w' | Throw v' w' => keeps N own w w' /\ points_within N own (data_ v')
      | Undefined => True
      end) as Hstep.
    { intros v1 w1 K1 Hp1.
      pose proof (construct_loop_keeps N own (data_ v1) val (count - size_ v1) (size_ v1) 0
                    w1 Hp1) as K.
      destruct (construct_loop _ val _ _ 0 w1) as [[] w2 | e w2 |]; cbn [rethrow bind];
        [| |done]; (split; [by eapply keeps_trans | done]). }
    destruct (Nat.ltb (capacity_ v) count).
    + pose proof (reserve_more_keeps N own count v w HN Hown) as K.
      destruct (reserve_more count v w) as [v1 w1 | v1 w1 |]; cbn [bind]; [| |done].
      * destruct K. by apply Hstep.
      * destruct K as [? ->]. done.
    + cbn [bind]. apply Hstep; [apply keeps_refl | done].
Qed.

(** whatever a call on [v] does, it leaves the blocks of other containers
    alone and keeps pointing into its own storage *)
Lemma run_keeps N own c v w :
  N <= next_block w -> points_within N own (data_ v) ->
  match run c v w with
  | Ok v' w' | Throw v' w' => keeps N own w w' /\ points_within N own (data_ v')
  | Undefined => True
  end.
Proof.
  intros HN Hown.
  assert (forall x, match emplace_back x v w with
                    | Ok v' w' | Throw v' w' => keeps N own w w' /\ points_within N own (data_ v')
                    | Undefined => True
                    end) as Hemplace.
  { intros x. unfold emplace_back.
    assert (forall v1 w1, keeps N own w w1 -> points_within N own (data_ v1) ->
      match (let* _ := rethrow (fun _ => v1)
                         (construct (ptr_add (data_ v1) (size_ v1)) x w1) in
             Ok (E := Vector) (MkVector (data_ v1) (S (size_ v1)) (capacity_ v1))) with
      | Ok v' w' | Throw v' w' => keeps N own w w' /\ points_within N own (data_ v')
      | Undefined => True
      end) as Hstep.
    { intros v1 w1 K1 Hp1.
      pose proof (construct_keeps N own (ptr_add (data_ v1) (size_ v1)) x w1 Hp1) as K.
      destruct (construct _ x w1) as [[] w2 | [] w2 |]; cbn [rethrow bind];
        [| |done]; (split; [by eapply keeps_trans | done]). }
    destruct (Nat.eqb (size_ v) (capacity_ v)).
    - pose proof (reserve_more_keeps N own (new_capacity (capacity_ v)) v w HN Hown) as K.
      destruct (reserve_more _ v w) as [v1 w1 | v1 w1 |]; cbn [bind]; [| |done].
      + destruct K. by apply Hstep.
      + destruct K as [? ->]. done.
    - cbn [bind]. apply Hstep; [apply keeps_refl | done]. }
  destruct c as [x | x | | n | | n | n x |]; cbn [run].
  - apply Hemplace.
  - apply Hemplace.
  - unfold pop_back. destruct (Nat.ltb 0 (size_ v)); [|by split; [apply keeps_refl|]].
    cbn [data_ size_].
    pose proof (destroy_keeps N own (ptr_add (data_ v) (size_ v - 1)) w Hown) as K.
    destruct (destroy _ w) as [[] w1 | [] w1 |]; cbn [rethrow bind]; done.
  - unfold reserve. destruct (Nat.ltb (capacity_ v) n); [|by split; [apply keeps_refl|]].
    pose proof (reserve_more_keeps N own n v w HN Hown) as K.
    destruct (reserve_more n v w) as [v1 w1 | v1 w1 |]; [done| |done].
    destruct K as [? ->]. done.
  - unfold shrink_to_fit.
    destruct (Nat.ltb (size_ v) (capacity_ v)); [|by split; [apply keeps_refl|]].
    destruct (Nat.eqb (size_ v) 0).
    + pose proof (deallocate_keeps N own (data_ v) (capacity_ v) w Hown) as K.
      destruct (deallocate _ _ w) as [[] w1 | [] w1 |]; cbn [rethrow bind]; done.
    + pose proof (reserve_more_keeps N own (size_ v) v w HN Hown) as K.
      destruct (reserve_more (size_ v) v w) as [v1 w1 | v1 w1 |]; [done| |done].
      destruct K as [? ->]. done.
  - rewrite resize_eq. by apply resize_with_keeps.
  - rewrite resize_value_eq. by apply resize_with_keeps.
  - unfold clear.
    pose proof (destroy_loop_keeps N own (data_ v) (size_ v) 0 w Hown) as K.
    destruct (destroy_loop _ 0 _ w) as [[] w1 | [] w1 |]; cbn [rethrow bind]; done.
Qed.

(** ** Appending, in general *)

Lemma elements_ext v v' w w' :
  size_ v' = size_ v ->
  (forall i, i < size_ v -> get v' i w' = get v i w) ->
  elements v' w' = elements v w.
Proof.
  intros Hs Hg. unfold elements. rewrite Hs. apply list_fmap_ext.
  intros k i Hi. apply Hg. apply lookup_seq in Hi. lia.
Qed.

Lemma elements_snoc v v' w w' :
  size_ v' = S (size_ v) ->
  (forall i, i < size_ v -> get v' i w' = get v i w) ->
  elements v' w' = elements v w ++ [get v' (size_ v) w'].
Proof.
  intros Hs Hg. unfold elements. rewrite Hs, seq_S, fmap_app. cbn. f_equal.
  apply list_fmap_ext. intros k i Hi. apply Hg. apply lookup_seq in Hi. lia.
Qed.

Lemma elements_length v w : length (elements v w) = size_ v.
Proof. unfold elements. by rewrite length_fmap, length_seq. Qed.

Lemma elements_lookup v w i : i < size_ v -> elements v w !! i = Some (get v i w).
Proof.
  intros Hi. unfold elements. rewrite list_lookup_fmap, lookup_seq_lt by done. done.
Qed.

(** without a reallocation [emplace_back] is one construction in the slot
    after the last element *)
Lemma emplace_back_in_place x v w b blk :
  size_ v <> capacity_ v ->
  data_ v = MkPtr (Some b) 0 -> heap w !! b = Some blk ->
  emplace_back x v w =
    if ctor_throws (n_ctor w) then Throw v (count_ctor w)
    else Ok (MkVector (data_ v) (S (size_ v)) (capacity_ v))
            (MkWorld (<[b := MkBlock (bsize blk) (<[size_ v := x]> (cells blk))]> (heap w))
                     (next_block w) (n_alloc w) (S (n_ctor w))
                     (trace w ++ [EvConstruct b (size_ v) x])).
Proof.
  intros Hne Hd Hb. unfold emplace_back.
  rewrite (proj2 (Nat.eqb_neq _ _) Hne). cbn [bind].
  rewrite Hd. unfold ptr_add. cbn [base off Nat.add].
  destruct (ctor_throws (n_ctor w)) eqn:E.
  - by rewrite (construct_throw _ _ _ _ _ Hb E).
  - by rewrite (construct_ok _ _ _ _ _ Hb E).
Qed.

Lemma wf_block_of_unequal v w :
  wf v w = true -> size_ v <> capacity_ v ->
  exists b blk, data_ v = MkPtr (Some b) 0 /\ heap w !! b = Some blk /\
                bsize blk = capacity_ v /\
                forall i, i < size_ v -> is_Some (cells blk !! i).
Proof.
  intros [_ Hs]%wf_spec Hne.
  destruct Hs as [_ ? ? | b blk Hd Hb Hbs _ Hall]; [lia|]. eauto 10.
Qed.



(** ** Walking a container with its cursors *)

Lemma ptr_add_0 p : ptr_add p 0 = p.
Proof. destruct p as [b o]. unfold ptr_add. cbn. f_equal. lia. Qed.

Lemma ptr_add_add p i j : ptr_add (ptr_add p i) j = ptr_add p (i + j).
Proof. unfold ptr_add. cbn. f_equal. lia. Qed.

Lemma ptr_eqb_add p i j : ptr_eqb (ptr_add p i) (ptr_add p j) = Nat.eqb i j.
Proof.
  unfold ptr_eqb, ptr_add. cbn. rewrite bool_decide_eq_true_2 by done. cbn.
  destruct (Nat.eqb_spec i j) as [->|Hne].
  - apply Nat.eqb_refl.
  - apply Nat.eqb_neq. lia.
Qed.

Lemma traverse_run d w : forall n fuel i,
  n <= fuel ->
  traverse fuel (MkIterator (ptr_add d i)) (MkIterator (ptr_add d (i + n))) w
  = Some ((fun j => load (ptr_add d j) w) <$> seq i n).
Proof.
  induction n as [|n IH]; intros fuel i Hf.
  - rewrite Nat.add_0_r. destruct fuel; cbn [traverse]; unfold Iterator_ne; cbn [it_ptr_];
      by rewrite ptr_eqb_add, Nat.eqb_refl.
  - destruct fuel as [|fuel]; [lia|]. cbn [traverse]. unfold Iterator_ne. cbn [it_ptr_].
    rewrite ptr_eqb_add, (proj2 (Nat.eqb_neq _ _)) by lia. cbn [negb].
    unfold Iterator_inc, Iterator_deref. cbn [it_ptr_]. rewrite ptr_add_add.
    replace (i + 1) with (S i) by lia. replace (i + S n) with (S i + n) by lia.
    rewrite (IH fuel (S i)) by lia. done.
Qed.

Lemma traverse_const_run d w : forall n fuel i,
  n <= fuel ->
  traverse_const fuel (MkConstIterator (ptr_add d i)) (MkConstIterator (ptr_add d (i + n))) w
  = Some ((fun j => load (ptr_add d j) w) <$> seq i n).
Proof.
  induction n as [|n IH]; intros fuel i Hf.
  - rewrite Nat.add_0_r.
    destruct fuel; cbn [traverse_const]; unfold ConstIterator_ne; cbn [cit_ptr_];
      by rewrite ptr_eqb_add, Nat.eqb_refl.
  - destruct fuel as [|fuel]; [lia|]. cbn [traverse_const]. unfold ConstIterator_ne.
    cbn [cit_ptr_].
    rewrite ptr_eqb_add, (proj2 (Nat.eqb_neq _ _)) by lia. cbn [negb].
    unfold ConstIterator_inc, ConstIterator_deref. cbn [cit_ptr_]. rewrite ptr_add_add.
    replace (i + 1) with (S i) by lia. replace (i + S n) with (S i + n) by lia.
    rewrite (IH fuel (S i)) by lia. done.
Qed.

Lemma traverse_begin_end v w k :
  traverse (size_ v + k) (begin v) (end_ v) w = Some (elements v w).
Proof.
  unfold begin, end_. rewrite <- (ptr_add_0 (data_ v)) at 1.
  change (ptr_add (data_ v) (size_ v)) with (ptr_add (data_ v) (0 + size_ v)).
  rewrite traverse_run by lia. done.
Qed.

(** X1: walking a container from [begin()] to [end()] with [!=], [*] and
    [++] stops after [size()] rounds and visits the elements
    [v[0]], ..., [v[size() - 1]] in order, whatever the state of the
    container; so do the [const] overloads of [begin()] and [end()].
    Between [cbegin()] and [cend()] the loop visits nothing. *)
Theorem traversal_visits_elements v w k :
  traverse (size_ v + k) (begin v) (end_ v) w = Some (elements v w) /\
  traverse_const (size_ v + k) (begin_const v) (end_const v) w = Some (elements v w) /\
  traverse_const k (cbegin v) (cend v) w = Some [].
Proof.
  split; [apply traverse_begin_end|]. split.
  - unfold begin_const, end_const. rewrite <- (ptr_add_0 (data_ v)) at 1.
    change (ptr_add (data_ v) (size_ v)) with (ptr_add (data_ v) (0 + size_ v)).
    rewrite traverse_const_run by lia. done.
  - unfold cbegin, cend. rewrite <- (ptr_add_0 (data_ v)).
    rewrite <- (Nat.add_0_r 0) at 2.
    rewrite traverse_const_run by lia. done.
Qed.


(** ** What the modifiers leave behind *)

(** X3: [emplace_back] on a well-formed container with spare capacity
    does not reallocate: the storage pointer and the capacity are
    unchanged, no allocation is made, the new element is constructed in
    slot [size()], the old elements are untouched, and the length stays
    within the capacity.  When the construction throws, the container and
    the heap are as before. *)
Theorem emplace_back_spare_capacity x v w :
  wf v w = true ->
  size_ v < capacity_ v ->
  match emplace_back x v w with
  | Ok v' w' =>
      data_ v' = data_ v /\ capacity_ v' = capacity_ v /\
      size_ v' = S (size_ v) /\ size_ v' <= capacity_ v' /\
      get v' (size_ v) w' = Some x /\
      (forall i, i < size_ v -> get v' i w' = get v i w) /\
      n_alloc w' = n_alloc w /\ next_block w' = next_block w
  | Throw v' w' => v' = v /\ heap w' = heap w /\ trace w' = trace w
  | Undefined => False
  end /\
  (ctor_throws (n_ctor w) = false -> exists v' w', emplace_back x v w = Ok v' w').
Proof.
  intros Hwf Hlt.
  destruct (wf_block_of_unequal v w Hwf ltac:(lia)) as (b & blk & Hd & Hb & _ & _).
  rewrite (emplace_back_in_place x v w b blk ltac:(lia) Hd Hb).
  destruct (ctor_throws (n_ctor w)); (split; [|by eauto]).
  - done.
  - cbn [data_ size_ capacity_ n_alloc next_block]. repeat split; try done; try lia.
    + erewrite get_in_block; [|exact Hd|]; cbn [heap]. 2: apply lookup_insert_eq.
      cbn [cells]. apply lookup_insert_eq.
    + intros i Hi. erewrite !get_in_block; [|exact Hd|exact Hb|exact Hd|]; cbn [heap].
      2: apply lookup_insert_eq. cbn [cells]. apply lookup_insert_ne. lia.
Qed.

(** what a returning append has done *)
Lemma emplace_back_Ok_inv x v w v' w' :
  wf v w = true -> emplace_back x v w = Ok v' w' ->
  wf v' w' = true /\ size_ v' = S (size_ v) /\ get v' (size_ v) w' = Some x /\
  (forall i, i < size_ v -> get v' i w' = get v i w) /\
  capacity_ v' <> 0.
Proof.
  intros Hwf He. pose proof (emplace_back_wf x v w Hwf) as Hw. rewrite He in Hw.
  split; [done|].
  assert (capacity_ v' <> 0) as Hc.
  { intros Hz. apply wf_spec in Hw as [_ [Hd Hs _ | ? ? _ _ _ ? _]]; [|done].
    revert He Hd. unfold emplace_back.
    destruct (if Nat.eqb _ _ then _ else _) as [v1 w1 | |]; cbn [bind]; [|done..].
    destruct (construct (ptr_add (data_ v1) (size_ v1)) x w1) as [[] w2 | |] eqn:Ec;
      cbn [rethrow bind]; [|done..].
    intros [= <- <-]. cbn [data_]. intros Hn. revert Ec. unfold construct, ptr_add.
    cbn [base]. by rewrite Hn. }
  destruct (decide (size_ v = capacity_ v)) as [Heq|Hne].
  - destruct (emplace_back_full_cases v w x Hwf Heq) as [H1 _]. rewrite He in H1.
    destruct H1 as (_ & Hs & Hg & Hold & _). done.
  - destruct (wf_block_of_unequal v w Hwf Hne) as (b & blk & Hd & Hb & _ & _).
    rewrite (emplace_back_in_place x v w b blk Hne Hd Hb) in He.
    destruct (ctor_throws (n_ctor w)); [done|]. injection He as <- <-.
    repeat split; [| |done].
    + erewrite get_in_block; [|exact Hd|]; cbn [heap]. 2: apply lookup_insert_eq.
      cbn [cells]. apply lookup_insert_eq.
    + intros i Hi. erewrite !get_in_block; [|exact Hd|exact Hb|exact Hd|]; cbn [heap].
      2: apply lookup_insert_eq. cbn [cells]. apply lookup_insert_ne. lia.
Qed.

(** [pop_back] on a container that is not empty is one destruction *)
Lemma pop_back_step v w :
  wf v w = true -> 0 < size_ v ->
  exists b blk y,
    data_ v = MkPtr (Some b) 0 /\ heap w !! b = Some blk /\
    cells blk !! (size_ v - 1) = Some y /\
    pop_back v w =
      Ok (MkVector (data_ v) (size_ v - 1) (capacity_ v))
         (MkWorld (<[b := MkBlock (bsize blk) (delete (size_ v - 1) (cells blk))]> (heap w))
                  (next_block w) (n_alloc w) (n_ctor w)
                  (trace w ++ [EvDestroy b (size_ v - 1)])).
Proof.
  intros [_ Hs]%wf_spec Hpos.
  destruct Hs as [_ ? _ | b blk Hd Hb _ _ Hall]; [lia|].
  destruct (Hall (size_ v - 1)) as [y Hy]; [lia|].
  exists b, blk, y. repeat split; try done.
  unfold pop_back. rewrite (proj2 (Nat.ltb_lt _ _) Hpos). cbn [data_ size_].
  rewrite Hd. unfold ptr_add. cbn [base off Nat.add].
  by rewrite (destroy_ok _ _ _ _ _ Hb Hy).
Qed.

Lemma destroyed_one b i y w blk :
  heap w !! b = Some blk -> cells blk !! i = Some y ->
  destroyed_range b i 1 w
    (MkWorld (<[b := MkBlock (bsize blk) (delete i (cells blk))]> (heap w))
             (next_block w) (n_alloc w) (n_ctor w) (trace w ++ [EvDestroy b i])).
Proof.
  intros Hb Hy. constructor; cbn; try done.
  - intros b' Hne. by apply lookup_insert_ne.
  - exists blk. eexists. rewrite lookup_insert_eq. repeat split; [done|]. cbn.
    intros j. destruct (decide (j = i)) as [->|Hne].
    + rewrite lookup_delete_eq. case_decide; [done | lia].
    + rewrite lookup_delete_ne by done. case_decide; [lia | done].
Qed.

(** X4: [pop_back] never throws and never touches the capacity or the
    storage pointer.  On an empty container it does nothing at all; on a
    well-formed container that is not empty it returns with the length one
    less, the last element destroyed (its slot holds nothing), and the
    elements before it as they were. *)
Theorem pop_back_removes_last v w :
  wf v w = true ->
  (size_ v = 0 -> pop_back v w = Ok v w) /\
  (0 < size_ v ->
   exists v' w',
     pop_back v w = Ok v' w' /\
     size_ v' = size_ v - 1 /\ capacity_ v' = capacity_ v /\ data_ v' = data_ v /\
     (forall i, i < size_ v - 1 -> get v' i w' = get v i w) /\
     get v' (size_ v - 1) w' = None /\
     n_alloc w' = n_alloc w /\
     wf v' w' = true).
Proof.
  intros Hwf. split.
  - intros Hz. unfold pop_back. by rewrite Hz.
  - intros Hpos.
    destruct (pop_back_step v w Hwf Hpos) as (b & blk & y & Hd & Hb & Hy & He).
    rewrite He. eexists _, _. split; [done|].
    cbn [size_ capacity_ data_ n_alloc]. repeat split; try done.
    3: { eapply (destroyed_range_wf v w _ b); eauto; [lia|].
         replace (size_ v - (size_ v - 1)) with 1 by lia. by eapply destroyed_one. }
    + intros i Hi. erewrite !get_in_block; [|exact Hd|exact Hb|exact Hd|]; cbn [heap].
      2: apply lookup_insert_eq. cbn [cells]. apply lookup_delete_ne. lia.
    + erewrite get_in_block; [|exact Hd|]; cbn [heap]. 2: apply lookup_insert_eq.
      cbn [cells]. apply lookup_delete_eq.
Qed.

(** X5: [pop_back] undoes a returning [push_back]: on a well-formed
    container, after [push_back(x)] returns, [pop_back()] returns with the
    length and the elements the container had before the append (the
    capacity is the one the append left). *)
Theorem pop_back_undoes_push_back x v w v1 w1 :
  wf v w = true ->
  push_back x v w = Ok v1 w1 ->
  exists v2 w2,
    pop_back v1 w1 = Ok v2 w2 /\
    size_ v2 = size_ v /\ capacity_ v2 = capacity_ v1 /\
    elements v2 w2 = elements v w.
Proof.
  intros Hwf He. unfold push_back in He.
  destruct (emplace_back_Ok_inv x v w v1 w1 Hwf He) as (Hwf1 & Hs1 & Hg1 & Ho1 & _).
  destruct (pop_back_step v1 w1 Hwf1 ltac:(lia)) as (b & blk & y & Hd & Hb & Hy & Hp).
  rewrite Hp. eexists _, _. split; [done|]. cbn [size_ capacity_].
  split; [lia|]. split; [done|].
  apply elements_ext; cbn [size_]; [lia|].
  intros i Hi. rewrite <- (Ho1 i Hi).
  erewrite !get_in_block; [|exact Hd|exact Hb|exact Hd|]; cbn [heap].
  2: apply lookup_insert_eq. cbn [cells]. apply lookup_delete_ne. lia.
Qed.


(** X7: [clear()] on a well-formed container never throws: it returns
    with length 0 and the capacity and the storage pointer unchanged, the
    storage block still allocated, every former element destroyed, and no
    allocator call other than those destructions. *)
Theorem clear_keeps_capacity v w :
  wf v w = true ->
  exists v' w',
    clear v w = Ok v' w' /\
    size_ v' = 0 /\ capacity_ v' = capacity_ v /\ data_ v' = data_ v /\
    (forall i, i < size_ v -> get v i w' = None) /\
    (forall b, base (data_ v) = Some b -> is_Some (heap w' !! b)) /\
    trace w' =
      trace w ++ match base (data_ v) with
                 | Some b => EvDestroy b <$> seq 0 (size_ v)
                 | None => []
                 end /\
    wf v' w' = true.
Proof.
  intros Hwf. unfold clear.
  pose proof Hwf as [Hf [Hd Hs Hc | b blk Hd Hb Hbs Hc Hall]]%wf_spec.
  - rewrite Hd, Hs. cbn. eexists _, _. split; [done|].
    cbn. rewrite app_nil_r. repeat split; try done; try lia.
    apply wf_intro; [done|]. by apply shape_null.
  - rewrite Hd.
    destruct (destroy_loop_ok b (size_ v) 0 w blk Hb) as (w' & Heq & Hdr).
    { intros j Hj. apply Hall. lia. }
    rewrite Heq. cbn [rethrow bind].
    pose proof Hdr as [Hfr (blk1 & blk' & H1 & H' & Hsz & Hcl) Hn Ha Hct Htr].
    eexists _, _. split; [done|]. cbn [size_ capacity_ data_ base].
    repeat split; try done.
    3: { rewrite <- Hd. eapply (destroyed_range_wf v w _ b); eauto; [lia|].
         by rewrite Nat.sub_0_r. }
    + intros i Hi. rewrite (get_in_block v w' b blk' i Hd H'), Hcl.
      case_decide; [done | lia].
    + intros b' [= <-]. eauto.
Qed.

(** ** Resizing *)

Lemma get_same_data v v' w i : data_ v' = data_ v -> get v' i w = get v i w.
Proof. intros H. apply get_frame; done. Qed.


(** the same loop when construction number [k] throws: the [k] elements
    constructed before it stay where they are *)
Lemma construct_tail_throw val x n k v w :
  (forall j w', val j w' = Some x) ->
  wf v w = true -> capacity_ v <> 0 ->
  k < n ->
  (forall j, j < k -> ctor_throws (n_ctor w + j) = false) ->
  ctor_throws (n_ctor w + k) = true ->
  exists w',
    construct_loop (data_ v) val (size_ v) n 0 w = Throw k w' /\
    (forall i, i < size_ v -> get v i w' = get v i w) /\
    (forall i, size_ v <= i < size_ v + k -> get v i w' = Some x) /\
    trace w' =
      trace w ++ match base (data_ v) with
                 | Some b => (fun j => EvConstruct b j x) <$> seq (size_ v) k
                 | None => []
                 end.
Proof.
  intros Hval Hwf Hcap Hk Hok Ht.
  destruct (wf_block v w Hwf Hcap) as (b & blk & Hd & Hb). rewrite Hd.
  destruct (construct_loop_throw b val (fun _ => Some x) n (size_ v) 0 w k)
    as (w' & -> & Hcr); eauto.
  eexists. split; [done|].
  destruct Hcr as [Hfr (blk1 & blk' & H1 & H' & Hsz & Hc) Hn Ha _ Htr].
  rewrite Hb in H1. injection H1 as <-. cbn [base].
  repeat split.
  - intros i Hi. erewrite (get_in_block v _ b blk' i Hd); [|exact H']. rewrite Hc.
    rewrite (get_in_block v w b blk i Hd Hb). case_decide; [lia | done].
  - intros i Hi. erewrite (get_in_block v _ b blk' i Hd); [|exact H']. rewrite Hc.
    case_decide; [done | lia].
  - cbn [trace count_ctor]. rewrite Htr. done.
Qed.

Lemma resize_with_shrink val count v w :
  wf v w = true -> count <= size_ v ->
  exists w',
    resize_with val count v w = Ok (MkVector (data_ v) count (capacity_ v)) w' /\
    (forall i, i < count -> get v i w' = get v i w) /\
    (forall i, count <= i < size_ v -> get v i w' = None) /\
    n_alloc w' = n_alloc w /\ n_ctor w' = n_ctor w /\
    (forall val', resize_with val' count v w = resize_with val count v w) /\
    wf (MkVector (data_ v) count (capacity_ v)) w' = true.
Proof.
  intros Hwf Hle. unfold resize_with.
  destruct (Nat.ltb_spec count (size_ v)) as [Hlt|Hge].
  - pose proof Hwf as [_ [? Hs ? | b blk Hd Hb Hbs Hc Hall]]%wf_spec; [lia|].
    rewrite Hd.
    destruct (destroy_loop_ok b (size_ v - count) count w blk Hb) as (w' & -> & Hdr).
    { intros j Hj. apply Hall. lia. }
    cbn [rethrow bind]. exists w'. split; [done|].
    pose proof Hdr as [Hfr (blk1 & blk' & H1 & H' & Hsz & Hcl) Hn Ha Hct Htr].
    rewrite Hb in H1. injection H1 as <-.
    repeat split; try done.
    + intros i Hi. rewrite (get_in_block v w' b blk' i Hd H'), Hcl.
      rewrite (get_in_block v w b blk i Hd Hb). case_decide; [lia | done].
    + intros i Hi. rewrite (get_in_block v w' b blk' i Hd H'), Hcl.
      case_decide; [done | lia].
    + rewrite <- Hd. by eapply (destroyed_range_wf v w _ b); eauto.
  - assert (count = size_ v) as -> by lia. rewrite Nat.ltb_irrefl.
    exists w. destruct v as [d s c]. cbn in *. repeat split; try done.
    intros i Hi. lia.
Qed.

(** X8: [resize(count)] and [resize(count, value)] with [count] at most
    the length, on a well-formed container, never throw and do the same
    thing: the length becomes [count], the capacity and the storage pointer
    stay, the first [count] elements are as they were, the elements from
    [count] on are destroyed, and nothing is allocated or constructed. *)
Theorem resize_truncates count value v w :
  wf v w = true ->
  count <= size_ v ->
  exists v' w',
    resize count v w = Ok v' w' /\
    resize_value count value v w = Ok v' w' /\
    size_ v' = count /\ capacity_ v' = capacity_ v /\ data_ v' = data_ v /\
    (forall i, i < count -> get v' i w' = get v i w) /\
    (forall i, count <= i < size_ v -> get v' i w' = None) /\
    n_alloc w' = n_alloc w /\ n_ctor w' = n_ctor w /\
    wf v' w' = true.
Proof.
  intros Hwf Hle.
  destruct (resize_with_shrink (val_const value) count v w Hwf Hle)
    as (w' & He & Hg & Hn & Ha & Hc & Hsame & Hwf').
  eexists _, w'. rewrite resize_eq, resize_value_eq, (Hsame val_default), He.
  repeat split; done.
Qed.



(** X10: [resize(count, value)] that needs no reallocation
    ([size() < count <= capacity()]) and whose construction number [k] of
    a new element throws: the exception leaves the call with the length,
    the capacity and the old elements unchanged, but the [k] elements
    already constructed stay in the slots [size()], ..., [size() + k - 1];
    the allocator trace holds their constructions and no destruction. *)
Theorem resize_failure_leaves_elements count value k v w :
  wf v w = true ->
  size_ v < count -> count <= capacity_ v ->
  k < count - size_ v ->
  (forall j, j < k -> ctor_throws (n_ctor w + j) = false) ->
  ctor_throws (n_ctor w + k) = true ->
  exists w',
    resize_value count value v w = Throw v w' /\
    (forall i, i < size_ v -> get v i w' = get v i w) /\
    (forall i, size_ v <= i < size_ v + k -> get v i w' = Some value) /\
    trace w' =
      trace w ++ match base (data_ v) with
                 | Some b => (fun j => EvConstruct b j value) <$> seq (size_ v) k
                 | None => []
                 end.
Proof.
  intros Hwf Hlt Hcap Hk Hok Ht. rewrite resize_value_eq. unfold resize_with.
  rewrite (ltb_false_of_lt _ _ Hlt), (proj2 (Nat.ltb_lt _ _) Hlt).
  rewrite (proj2 (Nat.ltb_ge _ _) Hcap). cbn [bind].
  destruct (construct_tail_throw (val_const value) value (count - size_ v) k v w)
    as (w' & -> & Hold & Hnew & Htr); try done; [lia|].
  cbn [rethrow bind]. eauto.
Qed.

(** ** Several containers in one heap *)

Lemma wf_block_below v w b :
  wf v w = true -> base (data_ v) = Some b -> b < next_block w.
Proof.
  intros [Hf Hs]%wf_spec Hb.
  destruct Hs as [Hd _ _ | b' blk Hd Hb' _ _ _]; rewrite Hd in Hb; [done|].
  injection Hb as <-. destruct (decide (b' < next_block w)) as [|Hn]; [done|].
  rewrite (heap_fresh_spec w b' Hf) in Hb'; [done | lia].
Qed.

Lemma wf_frame u w w' :
  wf u w = true -> heap_fresh w' = true ->
  (forall b, base (data_ u) = Some b -> heap w' !! b = heap w !! b) ->
  wf u w' = true.
Proof.
  intros [_ Hs]%wf_spec Hf Hfr. apply wf_intro; [done|].
  destruct u as [d s c]. by apply (storage_shape_frame (MkVector d s c) w w').
Qed.



(** ** The copy constructor *)

Lemma copied_wf other w v' w' :
  wf other w = true -> copied other w v' w' ->
  wf v' w' = true /\ wf other w' = true /\
  (forall i, get other i w' = get other i w) /\
  (forall b, base (data_ v') = Some b -> base (data_ other) <> Some b).
Proof.
  intros Hwf [Hs Hc Hd Hfr Hnew Hsame Hnx Htr].
  pose proof Hwf as [Hf Hsh]%wf_spec.
  assert (heap_fresh w' = true) as Hf'.
  { destruct (Nat.ltb_spec 0 (size_ other)) as [Hpos|Hz].
    - apply heap_fresh_intro. intros b Hb. rewrite Hnx in Hb.
      rewrite Hfr by lia. apply heap_fresh_spec; [done | lia].
    - by rewrite (Hsame ltac:(lia)). }
  assert (forall b, base (data_ other) = Some b -> heap w' !! b = heap w !! b) as Hother.
  { intros b Hb. apply Hfr. pose proof (wf_block_below other w b Hwf Hb). lia. }
  repeat split.
  - apply wf_intro; [done|].
    destruct (Nat.ltb_spec 0 (size_ other)) as [Hpos|Hz].
    + destruct (Hnew Hpos) as (blk' & Hb' & Hsz & Hcl).
      eapply shape_block; eauto; [congruence | lia |].
      intros i Hi. rewrite Hcl. case_decide; [|lia].
      destruct Hsh as [_ ? _ | b blk Hdo Hbo _ _ Hall]; [lia|].
      rewrite (get_in_block other w b blk i Hdo Hbo). apply Hall. lia.
    + apply shape_null; [done | lia | lia].
  - by apply (wf_frame other w w').
  - intros i. by apply get_frame.
  - intros b Hb Hb'. rewrite Hd in Hb.
    destruct (Nat.ltb 0 (size_ other)); [|done]. injection Hb as <-.
    pose proof (wf_block_below other w _ Hwf Hb'). lia.
Qed.

(** the allocator events of a copy that fails at element [k] *)
Lemma Vector_copy_throw_events other w k :
  wf other w = true ->
  alloc_throws (n_alloc w) = false ->
  k < size_ other ->
  (forall j, j < k -> ctor_throws (n_ctor w + j) = false) ->
  ctor_throws (n_ctor w + k) = true ->
  exists w',
    Vector_copy other w = Throw tt w' /\
    heap w' = heap w /\
    trace w' =
      trace w ++ EvAllocate (next_block w) (size_ other)
        :: omap (fun j => EvConstruct (next_block w) j <$> get other j w) (seq 0 k)
        ++ [EvDeallocate (next_block w) (size_ other)].
Proof.
  intros Hwf Ha Hk Hok Ht. pose proof Hwf as [Hfresh Hshape]%wf_spec.
  pose proof (heap_fresh_spec _ _ Hfresh (Nat.le_refl _)) as Hbn.
  destruct Hshape as [Hd Hs Hc | b blk Hd Hb Hbs Hc Hall]; [lia|].
  assert (b <> next_block w) as Hne by congruence.
  unfold Vector_copy. rewrite (proj2 (Nat.ltb_lt 0 (size_ other))) by lia.
  rewrite allocate_ok by done. cbn [bind].
  set (bn := next_block w) in *.
  match goal with |- context [construct_loop _ _ _ _ _ ?w0] => set (w1 := w0) end.
  destruct (construct_loop_throw bn (val_from (data_ other)) (fun j => cells blk !! j)
              (size_ other) 0 0 w1 k) as (w2 & Heq2 & Hcr).
  { done. }
  { subst w1. simpl. rewrite lookup_insert_eq. eauto. }
  { intros j w' _ Hfr. unfold val_from, load, ptr_add. rewrite Hd. simpl.
    rewrite Hfr by done. subst w1. simpl. rewrite lookup_insert_ne by done.
    by rewrite Hb. }
  { intros j Hj. apply Hall. lia. }
  { subst w1. simpl. done. }
  { subst w1. simpl. done. }
  rewrite Heq2. cbn [try_catch bind].
  destruct Hcr as [Hfr2 (blk1 & blk2 & H1 & H2 & Hsz2 & Hc2) Hn2 Ha2 Hct2 Htr2].
  rewrite (deallocate_ok bn _ (count_ctor w2) blk2) by done. cbn [bind].
  eexists. split; [done|]. split; cbn [heap trace count_ctor].
  - apply map_eq. intros b'. destruct (decide (b' = bn)) as [->|Hb'].
    + by rewrite lookup_delete_eq.
    + rewrite lookup_delete_ne by done. rewrite Hfr2 by done.
      subst w1. cbn [heap]. by rewrite lookup_insert_ne.
  - rewrite Htr2. subst w1. cbn [trace]. rewrite <- !app_assoc. cbn [app].
    do 3 f_equal. apply omap_ext_seq. intros j _.
    by rewrite (get_in_block other w b blk j Hd Hb).
Qed.

(** X12: the copy constructor on a well-formed source.  When it returns,
    the copy has the source's length and elements, its capacity is that
    length (not the source's capacity), it has storage of its own, and
    the source is untouched; both are well formed.  When it throws, every
    block is as before the call. *)
Theorem copy_constructor_copies other w :
  wf other w = true ->
  match Vector_copy other w with
  | Ok v' w' =>
      size_ v' = size_ other /\ capacity_ v' = size_ other /\
      elements v' w' = elements other w /\
      elements other w' = elements other w /\
      (forall b, base (data_ v') = Some b -> base (data_ other) <> Some b) /\
      wf v' w' = true /\ wf other w' = true
  | Throw _ w' => heap w' = heap w
  | Undefined => False
  end /\
  (alloc_throws (n_alloc w) = false ->
   (forall j, j < size_ other -> ctor_throws (n_ctor w + j) = false) ->
   exists v' w', Vector_copy other w = Ok v' w').
Proof.
  intros Hwf. split.
  - destruct (Vector_copy_cases other w Hwf) as [(v' & w' & -> & Hcp) | (w' & -> & Hrb)].
    + destruct (copied_wf other w v' w' Hwf Hcp) as (Hwf' & Hwfo & Hgo & Hdis).
      pose proof (cp_size _ _ _ _ Hcp) as Hs.
      repeat split; try done.
      * apply (cp_capacity _ _ _ _ Hcp).
      * apply elements_ext; [done|]. intros i Hi. by eapply copied_get.
      * apply elements_ext; [done|]. intros i _. apply Hgo.
    + by destruct Hrb.
  - intros Ha Hct.
    destruct (Vector_copy_ok other w Hwf Ha Hct) as (v' & w' & -> & _). eauto.
Qed.

(** X13: when the copy of element [k] throws in the copy constructor, the
    new block is released and the exception passed on, but the [k] copies
    already constructed in it are not destroyed: the allocator sees the
    allocation, [k] constructions, the release, and no destruction. *)
Theorem copy_constructor_failure_destroys_nothing other w k :
  wf other w = true ->
  alloc_throws (n_alloc w) = false ->
  k < size_ other ->
  (forall j, j < k -> ctor_throws (n_ctor w + j) = false) ->
  ctor_throws (n_ctor w + k) = true ->
  exists w',
    Vector_copy other w = Throw tt w' /\
    heap w' = heap w /\
    trace w' =
      trace w ++ EvAllocate (next_block w) (size_ other)
        :: omap (fun j => EvConstruct (next_block w) j <$> get other j w) (seq 0 k)
        ++ [EvDeallocate (next_block w) (size_ other)].
Proof. apply Vector_copy_throw_events. Qed.


(** ** Destruction *)




(** ** Move assignment *)


(** ** Assignment from a list *)

Lemma push_all_outcome xs : forall v w N own,
  wf v w = true -> N <= next_block w -> points_within N own (data_ v) ->
  match push_all xs v w with
  | Ok v' w' | Throw v' w' =>
      wf v' w' = true /\ keeps N own w w' /\ points_within N own (data_ v')
  | Undefined => False
  end.
Proof.
  induction xs as [|x xs IH]; intros v w N own Hwf HN Hp; cbn [push_all].
  - split; [done|]. split; [apply keeps_refl | done].
  - pose proof (run_wf (CallPushBack x) v w Hwf) as Hw.
    pose proof (run_keeps N own (CallPushBack x) v w HN Hp) as Hk.
    cbn [run] in Hw, Hk.
    destruct (push_back x v w) as [v1 w1 | v1 w1 |]; cbn [bind]; [| |done].
    + destruct Hk as [Hk1 Hp1].
      specialize (IH v1 w1 N own Hw (keeps_next _ _ _ _ Hk1 HN) Hp1).
      destruct (push_all xs v1 w1) as [v2 w2 | v2 w2 |]; [| |done].
      all: destruct IH as (? & ? & ?); (split; [done|]); (split; [by eapply keeps_trans | done]).
    + by destruct Hk.
Qed.

Lemma push_all_Ok_inv xs : forall v w v' w',
  wf v w = true -> push_all xs v w = Ok v' w' ->
  size_ v' = size_ v + length xs /\ elements v' w' = elements v w ++ (Some <$> xs).
Proof.
  induction xs as [|x xs IH]; intros v w v' w' Hwf; cbn [push_all length fmap list_fmap].
  - intros [= <- <-]. rewrite app_nil_r. split; [lia | done].
  - unfold push_back. destruct (emplace_back x v w) as [v1 w1 | |] eqn:E; cbn [bind];
      [|done..].
    destruct (emplace_back_Ok_inv x v w v1 w1 Hwf E) as (Hwf1 & Hs1 & Hg1 & Ho1 & _).
    intros He. destruct (IH v1 w1 v' w' Hwf1 He) as [Hs He'].
    split; [lia|].
    rewrite He', (elements_snoc v v1 w w1 Hs1 Ho1), Hg1, <- app_assoc. done.
Qed.


(** ** Comparing two containers *)

Lemma equal_loop_spec eqb p q w :
  (forall x y, eqb x y = true <-> x = y) ->
  forall n i,
    (forall j, i <= j < i + n -> is_Some (load (ptr_add p j) w)) ->
    (forall j, i <= j < i + n -> is_Some (load (ptr_add q j) w)) ->
    exists r, equal_loop eqb p q i n w = Some r /\
      (r = true <->
       forall j, i <= j < i + n -> load (ptr_add p j) w = load (ptr_add q j) w).
Proof.
  intros Heqb. induction n as [|n IH]; intros i Hp Hq; cbn [equal_loop].
  - exists true. split; [done|]. split; [intros _ j Hj; lia | done].
  - destruct (Hp i ltac:(lia)) as [x Hx]. destruct (Hq i ltac:(lia)) as [y Hy].
    rewrite Hx, Hy. cbn [mbind option_bind]. destruct (eqb x y) eqn:E.
    + apply Heqb in E as ->.
      destruct (IH (S i)) as (r & -> & Hr).
      { intros j Hj. apply Hp. lia. } { intros j Hj. apply Hq. lia. }
      exists r. split; [done|]. rewrite Hr. split.
      * intros H j Hj. destruct (decide (j = i)) as [Hji|].
        -- rewrite Hji. by rewrite Hx, Hy.
        -- apply H. lia.
      * intros H j Hj. apply H. lia.
    + exists false. split; [done|]. split; [done|]. intros H.
      specialize (H i ltac:(lia)). rewrite Hx, Hy in H. injection H as ->.
      assert (eqb y y = true) by (by apply Heqb). congruence.
Qed.

Lemma wf_loads v w j : wf v w = true -> j < size_ v -> is_Some (load (ptr_add (data_ v) j) w).
Proof.
  intros [_ Hs]%wf_spec Hj.
  destruct Hs as [_ ? _ | b blk Hd Hb _ _ Hall]; [lia|].
  change (is_Some (get v j w)). rewrite (get_in_block v w b blk j Hd Hb). by apply Hall.
Qed.

(** X18: [operator==] on two well-formed containers, for an element type
    whose [operator==] decides equality, always has a result: it is [true]
    exactly when the two containers have the same length and the same
    elements in the same order; [operator!=] is its negation. *)
Theorem operator_eq_compares_elements eqb lhs rhs w :
  (forall x y, eqb x y = true <-> x = y) ->
  wf lhs w = true -> wf rhs w = true ->
  exists r,
    Vector_eq eqb lhs rhs w = Some r /\
    Vector_ne eqb lhs rhs w = Some (negb r) /\
    (r = true <-> elements lhs w = elements rhs w).
Proof.
  intros Heqb Hl Hr. unfold Vector_ne, Vector_eq.
  destruct (Nat.eqb_spec (size_ lhs) (size_ rhs)) as [Hs|Hs].
  - destruct (equal_loop_spec eqb (data_ lhs) (data_ rhs) w Heqb (size_ lhs) 0)
      as (r & -> & Hiff).
    { intros j Hj. apply wf_loads; [done | lia]. }
    { intros j Hj. apply wf_loads; [done | lia]. }
    exists r. split; [done|]. split; [done|]. split.
    + intros Ht. symmetry. apply elements_ext; [done|]. intros i Hi.
      symmetry. apply Hiff; [done | lia].
    + intros He. apply Hiff. intros j Hj.
      assert (elements lhs w !! j = elements rhs w !! j) as Hlk by (by rewrite He).
      rewrite !elements_lookup in Hlk by lia. by injection Hlk.
  - exists false. split; [done|]. split; [done|]. split; [done|]. intros He.
    apply (f_equal length) in He. rewrite !elements_length in He. done.
Qed.

(** ** Cursors: arithmetic and comparison *)

Lemma ptr_offset_nat p (n : nat) : ptr_offset p (Z.of_nat n) = Some (ptr_add p n).
Proof.
  unfold ptr_offset, ptr_add. rewrite (proj2 (Z.leb_le _ _)) by lia.
  do 2 f_equal. lia.
Qed.

Lemma ptr_offset_back p (n : nat) : ptr_offset (ptr_add p n) (- Z.of_nat n) = Some p.
Proof.
  unfold ptr_offset, ptr_add. cbn [base off]. rewrite (proj2 (Z.leb_le _ _)) by lia.
  destruct p as [b o]. cbn. do 2 f_equal. lia.
Qed.

Lemma ptr_eqb_eq p q : ptr_eqb p q = true <-> p = q.
Proof.
  unfold ptr_eqb. rewrite andb_true_iff, bool_decide_eq_true, Nat.eqb_eq.
  destruct p, q; cbn. split; [intros [-> ->]; done | intros [= -> ->]; done].
Qed.

(** X19: cursor arithmetic on any container and any cursor.
    [end() - begin()] is [size()], [begin() + size()] is [end()], and
    [begin() == end()] exactly when the container is empty.  Moving a
    cursor forward by [n] and back by [n] gives the cursor back, the
    distance from it to the moved cursor is [n], and [--] undoes [++]. *)
Theorem cursor_arithmetic v (it : Iterator) (n : nat) :
  Iterator_diff (end_ v) (begin v) = Some (Z.of_nat (size_ v)) /\
  Iterator_plus (begin v) (Z.of_nat (size_ v)) = Some (end_ v) /\
  Iterator_eq (begin v) (end_ v) = empty v /\
  (exists it',
     Iterator_plus it (Z.of_nat n) = Some it' /\
     Iterator_minus it' (Z.of_nat n) = Some it /\
     Iterator_diff it' it = Some (Z.of_nat n)) /\
  Iterator_dec (Iterator_inc it) = Some it /\
  fst (Iterator_post_inc it) = it /\ snd (Iterator_post_inc it) = Iterator_inc it.
Proof.
  repeat split.
  - unfold Iterator_diff, ptr_diff, end_, begin, ptr_add. cbn [it_ptr_ base off].
    rewrite bool_decide_eq_true_2 by done. f_equal. lia.
  - unfold Iterator_plus, begin, end_. cbn [it_ptr_]. by rewrite ptr_offset_nat.
  - unfold Iterator_eq, begin, end_, empty, ptr_eqb, ptr_add. cbn [it_ptr_ base off].
    rewrite bool_decide_eq_true_2 by done. cbn [andb].
    destruct (Nat.eqb_spec (size_ v) 0) as [->|Hne].
    + rewrite Nat.add_0_r. apply Nat.eqb_refl.
    + apply Nat.eqb_neq. lia.
  - exists (MkIterator (ptr_add (it_ptr_ it) n)). repeat split.
    + unfold Iterator_plus. by rewrite ptr_offset_nat.
    + unfold Iterator_minus. cbn [it_ptr_]. rewrite ptr_offset_back. by destruct it.
    + unfold Iterator_diff, ptr_diff, ptr_add. cbn [it_ptr_ base off].
      rewrite bool_decide_eq_true_2 by done. f_equal. lia.
  - unfold Iterator_dec, Iterator_inc. cbn [it_ptr_].
    change (-1)%Z with (- Z.of_nat 1)%Z. rewrite ptr_offset_back. by destruct it.
Qed.

(** X20: comparing cursors.  [==] on two cursors holds exactly when they
    hold the same position and [!=] is its negation; comparing a mutable
    with a read-only cursor, in either order, gives what comparing the
    two read-only cursors gives after the conversion
    [ConstIterator(const Iterator&)], which keeps the position. *)
Theorem cursor_comparisons (a b : Iterator) (c : ConstIterator) :
  (Iterator_eq a b = true <-> a = b) /\
  Iterator_ne a b = negb (Iterator_eq a b) /\
  (ConstIterator_eq (ConstIterator_of a) c = true <-> ConstIterator_of a = c) /\
  Iterator_eq_const a c = ConstIterator_eq (ConstIterator_of a) c /\
  ConstIterator_eq_mut c a = ConstIterator_eq c (ConstIterator_of a) /\
  Iterator_eq_const a c = ConstIterator_eq_mut c a /\
  Iterator_ne_const a c = negb (Iterator_eq_const a c) /\
  ConstIterator_ne_mut c a = negb (ConstIterator_eq_mut c a) /\
  cit_ptr_ (ConstIterator_of a) = it_ptr_ a.
Proof.
  assert (forall p q, ptr_eqb p q = ptr_eqb q p) as Hsym.
  { intros p q. destruct (ptr_eqb p q) eqn:E.
    - apply ptr_eqb_eq in E as ->. symmetry. by apply ptr_eqb_eq.
    - destruct (ptr_eqb q p) eqn:E'; [|done].
      apply ptr_eqb_eq in E' as ->. rewrite <- E. by apply ptr_eqb_eq. }
  repeat split; try done.
  - unfold Iterator_eq. rewrite ptr_eqb_eq. destruct a, b; cbn. congruence.
  - intros ->. unfold Iterator_eq. by apply ptr_eqb_eq.
  - unfold ConstIterator_eq. rewrite ptr_eqb_eq. destruct a, c; cbn.
    unfold ConstIterator_of. cbn. congruence.
  - intros <-. unfold ConstIterator_eq. by apply ptr_eqb_eq.
  - unfold Iterator_eq_const, ConstIterator_eq_mut. apply Hsym.
Qed.

(** ** [max_size] *)

(** X21: for an element type of [sz >= 1] bytes, [max_size()] is exactly
    the largest element count whose byte size fits [size_t].  For a count
    up to [max_size()] the byte count [allocate] computes is the true one;
    for a larger count the multiplication wraps and [allocate], which
    makes no check, asks [::operator new] for fewer bytes than the
    elements need. *)
Theorem max_size_is_largest_count (bits sz n : N) :
  (0 < sz)%N ->
  ((n <= max_size bits sz)%N <-> (n * sz <= SIZE_MAX bits)%N) /\
  ((n <= max_size bits sz)%N -> allocate_bytes bits sz n = (n * sz)%N) /\
  ((max_size bits sz < n)%N -> (allocate_bytes bits sz n < n * sz)%N).
Proof.
  intros Hsz. unfold max_size, allocate_bytes, SIZE_MAX.
  assert (0 < 2 ^ bits)%N as Hpow by (apply N.neq_0_lt_0, N.pow_nonzero; lia).
  assert ((n <= (2 ^ bits - 1) / sz)%N <-> (n * sz <= 2 ^ bits - 1)%N) as Hiff.
  { split.
    - intros H. etransitivity; [apply N.mul_le_mono_r, H|].
      rewrite N.mul_comm. apply N.Div0.mul_div_le.
    - intros H. apply N.div_le_lower_bound; [lia|]. by rewrite N.mul_comm. }
  split; [done|]. split.
  - intros H%Hiff. apply N.mod_small. lia.
  - intros H. assert (~ (n * sz <= 2 ^ bits - 1)%N) as Hn by (rewrite <- Hiff; lia).
    eapply N.lt_le_trans; [apply N.mod_lt; lia | lia].
Qed.

(** ** Allocation failure *)

(** X22: when the allocation of a reallocating call fails, the call
    (append, [reserve], [resize], [shrink_to_fit]) passes the exception
    on before it has touched anything: the container's fields, the heap
    and the allocator trace are those before the call, and no element was
    constructed. *)
Theorem allocation_failure_restores_state (c : Call) v w (n : nat) :
  reallocates c v = Some n ->
  alloc_throws (n_alloc w) = true ->
  exists w',
    run c v w = Throw v w' /\
    heap w' = heap w /\ trace w' = trace w /\
    n_ctor w' = n_ctor w /\ next_block w' = next_block w.
Proof.
  intros Hre Ha. exists (count_alloc w). split; [|done].
  eapply run_reserve_more_throw; [done|]. by apply reserve_more_alloc_throw.
Qed.

(** ** Checked access *)

(** X23: [at(index)] throws [std::out_of_range] exactly when
    [index >= size()], whatever the container; on a well-formed container
    and an index below the length it returns the element [operator[]]
    returns, and that element exists. *)
Theorem at_checks_bounds v w index :
  wf v w = true ->
  (at_ v index w = inl tt <-> size_ v <= index) /\
  (index < size_ v ->
   exists x, at_ v index w = inr (Some x) /\ get v index w = Some x).
Proof.
  intros Hwf. unfold at_. destruct (Nat.leb_spec (size_ v) index) as [Hle|Hlt].
  - split; [done | lia].
  - split; [split; [done | lia]|]. intros _.
    destruct (wf_loads v w index Hwf Hlt) as [x Hx]. exists x.
    change (load (ptr_add (data_ v) index) w) with (get v index w) in Hx.
    by rewrite Hx.
Qed.

(** ** Safety of reachable states *)


(** ** Calls that stay in place *)

(** X27: a call whose guards do not lead to [reserve_more] (an append or
    a [resize] within the capacity, [reserve] of at most the capacity,
    [shrink_to_fit] of a full or of an empty container, [pop_back],
    [clear]) makes no allocation, whatever the state and whether it
    returns or throws. *)
Theorem calls_in_place_do_not_allocate c v w :
  reallocates c v = None ->
  match run c v w with
  | Ok _ w' | Throw _ w' => n_alloc w' = n_alloc w
  | Undefined => True
  end.
Proof. apply run_without_reallocation. Qed.

(** ** Where the length stays within the capacity *)

(** X25: the bound [size() <= capacity()] is kept by every call of the
    public interface on a well-formed container, returning or throwing,
    with one exception: an append onto a full container of capacity 1. *)
Theorem length_within_capacity_preserved c v w :
  wf v w = true ->
  size_ v <= capacity_ v ->
  (forall x, c = CallEmplaceBack x \/ c = CallPushBack x ->
             ~ (size_ v = 1 /\ capacity_ v = 1)) ->
  match run c v w with
  | Ok v' w' | Throw v' w' => size_ v' <= capacity_ v'
  | Undefined => False
  end.
Proof.
  intros Hwf Hle Hex.
  pose proof (run_wf c v w Hwf) as Hsafe.
  assert (forall n, n <> 0 ->
            match reserve_more n v w with
            | Ok v' w' => size_ v' = size_ v /\ capacity_ v' = n
            | Throw v' w' => v' = v
            | Undefined => True
            end) as Hrm.
  { intros n Hn. pose proof (reserve_more_wf n v w Hwf Hn) as H.
    destruct (reserve_more n v w); [by destruct H | by destruct H | done]. }
  assert (forall x, ~ (size_ v = 1 /\ capacity_ v = 1) ->
            match emplace_back x v w with
            | Ok v' w' | Throw v' w' => size_ v' <= capacity_ v'
            | Undefined => True
            end) as Hemplace.
  { intros x Hn1. unfold emplace_back.
    destruct (Nat.eqb_spec (size_ v) (capacity_ v)) as [Heq|Hne].
    - specialize (Hrm _ (new_capacity_nonzero (capacity_ v))).
      assert (size_ v < new_capacity (capacity_ v)) as Hgrow.
      { destruct (decide (capacity_ v = 0)) as [Hz|Hnz].
        - rewrite Heq, Hz. cbn. lia.
        - rewrite Heq. apply new_capacity_grows. lia. }
      destruct (reserve_more _ v w) as [v1 w1 | v1 w1 |]; cbn [bind]; [| |done].
      + destruct Hrm as [Hs Hc].
        destruct (construct _ x w1) as [[] w2 | [] w2 |]; cbn [rethrow bind size_ capacity_];
          [lia | lia | done].
      + by subst.
    - cbn [bind].
      destruct (construct _ x w) as [[] w2 | [] w2 |]; cbn [rethrow bind size_ capacity_];
        [lia | lia | done]. }
  assert (forall val count,
            match resize_with val count v w with
            | Ok v' w' | Throw v' w' => size_ v' <= capacity_ v'
            | Undefined => True
            end) as Hresize.
  { intros val count. unfold resize_with.
    destruct (Nat.ltb_spec count (size_ v)) as [Hlt|Hge].
    - destruct (destroy_loop _ count _ w) as [[] w1 | [] w1 |];
        cbn [rethrow bind size_ capacity_]; [lia | done | done].
    - destruct (Nat.ltb_spec (size_ v) count) as [Hgt|]; [|done].
      destruct (Nat.ltb_spec (capacity_ v) count) as [Hcap|Hcap].
      + specialize (Hrm count ltac:(lia)).
        destruct (reserve_more count v w) as [v1 w1 | v1 w1 |]; cbn [bind]; [| |done].
        * destruct Hrm as [Hs Hc].
          destruct (construct_loop _ val _ _ 0 w1) as [[] w2 | e w2 |];
            cbn [rethrow bind size_ capacity_]; [lia | lia | done].
        * by subst.
      + cbn [bind].
        destruct (construct_loop _ val _ _ 0 w) as [[] w2 | e w2 |];
          cbn [rethrow bind size_ capacity_]; [lia | lia | done]. }
  assert (match run c v w with
          | Ok v' w' | Throw v' w' => size_ v' <= capacity_ v'
          | Undefined => True
          end) as Hsz.
  { destruct c as [x | x | | n | | n | n x |]; cbn [run].
    - apply Hemplace. apply (Hex x). by left.
    - apply Hemplace. apply (Hex x). by right.
    - unfold pop_back. destruct (Nat.ltb 0 (size_ v)); [|done].
      cbn [data_ size_].
      destruct (destroy _ w) as [[] w1 | [] w1 |]; cbn [rethrow bind size_ capacity_];
        [lia | lia | done].
    - unfold reserve. destruct (Nat.ltb_spec (capacity_ v) n) as [Hlt|]; [|done].
      specialize (Hrm n ltac:(lia)).
      destruct (reserve_more n v w) as [v1 w1 | v1 w1 |]; [| by subst | done].
      destruct Hrm. lia.
    - unfold shrink_to_fit.
      destruct (Nat.ltb_spec (size_ v) (capacity_ v)) as [Hlt|]; [|done].
      destruct (Nat.eqb_spec (size_ v) 0) as [Hz|Hnz].
      + destruct (deallocate _ _ w) as [[] w1 | [] w1 |];
          cbn [rethrow bind size_ capacity_]; [lia | done | done].
      + specialize (Hrm (size_ v) Hnz).
        destruct (reserve_more (size_ v) v w) as [v1 w1 | v1 w1 |]; [| by subst | done].
        destruct Hrm. lia.
    - rewrite resize_eq. apply Hresize.
    - rewrite resize_value_eq. apply Hresize.
    - unfold clear.
      destruct (destroy_loop _ 0 _ w) as [[] w1 | [] w1 |];
        cbn [rethrow bind size_ capacity_]; [lia | done | done]. }
  destruct (run c v w); done.
Qed.

(** ** A range constructor that fails *)

Lemma push_all_app xs ys : forall v w,
  push_all (xs ++ ys) v w = let* v1 := push_all xs v w in push_all ys v1.
Proof.
  induction xs as [|x xs IH]; intros v w; cbn [app push_all bind]; [done|].
  destruct (push_back x v w) as [v1 w1 | v1 w1 |]; cbn [bind]; [apply IH | done | done].
Qed.

Lemma emplace_back_Throw_size x v w v' w' :
  wf v w = true -> emplace_back x v w = Throw v' w' -> size_ v' = size_ v.
Proof.
  intros Hwf He.
  destruct (decide (size_ v = capacity_ v)) as [Heq|Hne].
  - destruct (emplace_back_full_cases v w x Hwf Heq) as [H1 _]. rewrite He in H1.
    by destruct H1.
  - destruct (wf_block_of_unequal v w Hwf Hne) as (b & blk & Hd & Hb & _ & _).
    rewrite (emplace_back_in_place x v w b blk Hne Hd Hb) in He.
    destruct (ctor_throws (n_ctor w)); [|done]. by injection He as <- <-.
Qed.

(** X26: the range constructor (and the initializer-list constructor,
    which delegates to it) leaks when an append fails after at least one
    has succeeded: the constructor passes the exception on, no container
    exists, and a block the constructor allocated is still allocated, with
    the elements appended so far still constructed in it. *)
Theorem range_constructor_failure_leaks ys x zs w v1 w1 v2 w2 :
  heap_fresh w = true ->
  ys <> [] ->
  push_all ys (MkVector nullptr 0 0) w = Ok v1 w1 ->
  push_back x v1 w1 = Throw v2 w2 ->
  Vector_range (ys ++ x :: zs) w = Throw tt w2 /\
  exists b blk,
    next_block w <= b /\ heap w2 !! b = Some blk /\
    forall i y, ys !! i = Some y -> cells blk !! i = Some y.
Proof.
  intros Hf Hys He1 He2.
  assert (wf (MkVector nullptr 0 0) w = true) as Hwf0.
  { apply wf_intro; [done|]. by apply shape_null. }
  pose proof (push_all_outcome ys _ w (next_block w) None Hwf0 (Nat.le_refl _)
                ltac:(by intros b Hb)) as Hout.
  rewrite He1 in Hout. destruct Hout as (Hwf1 & Hk1 & Hp1).
  destruct (push_all_Ok_inv ys _ w v1 w1 Hwf0 He1) as [Hs1 Hel1]. cbn in Hs1, Hel1.
  pose proof (run_wf (CallPushBack x) v1 w1 Hwf1) as Hw2.
  pose proof (run_keeps (next_block w) None (CallPushBack x) v1 w1
                (keeps_next _ _ _ _ Hk1 (Nat.le_refl _)) Hp1) as Hk2.
  cbn [run] in Hw2, Hk2. rewrite He2 in Hw2, Hk2. destruct Hk2 as [_ Hp2].
  pose proof (emplace_back_Throw_size x v1 w1 v2 w2 Hwf1 He2) as Hs2.
  split.
  - unfold Vector_range. rewrite push_all_app, He1. cbn [bind push_all].
    by rewrite He2.
  - assert (size_ v2 <> 0) as Hnz.
    { rewrite Hs2, Hs1. destruct ys; [done | cbn; lia]. }
    pose proof Hw2 as [_ [_ ? _ | b blk Hd Hb _ _ _]]%wf_spec; [done|].
    exists b, blk. split; [|split; [done|]].
    + destruct (decide (next_block w <= b)) as [|Hlt]; [done|].
      specialize (Hp2 b ltac:(by rewrite Hd) ltac:(lia)). done.
    + assert (forall i, i < size_ v1 -> get v2 i w2 = get v1 i w1) as Hg.
      { intros i Hi. revert He2. unfold push_back. intros He2.
        destruct (decide (size_ v1 = capacity_ v1)) as [Heq|Hne].
        - destruct (emplace_back_full_cases v1 w1 x Hwf1 Heq) as [H1 _].
          rewrite He2 in H1. destruct H1 as [_ H1]. by apply H1.
        - destruct (wf_block_of_unequal v1 w1 Hwf1 Hne) as (b1 & blk1 & Hd1 & Hb1 & _ & _).
          rewrite (emplace_back_in_place x v1 w1 b1 blk1 Hne Hd1 Hb1) in He2.
          destruct (ctor_throws (n_ctor w1)); [|done]. by injection He2 as <- <-. }
      intros i y Hy. pose proof (lookup_lt_Some _ _ _ Hy) as Hi.
      rewrite <- (get_in_block v2 w2 b blk i Hd Hb), Hg by lia.
      assert (elements v1 w1 !! i = Some (Some y)) as Hl
        by (by rewrite Hel1, list_lookup_fmap, Hy).
      rewrite elements_lookup in Hl by lia. by injection Hl.
Qed.

End Properties.

(** * Concrete runs *)

(** [two_sevens] is what the sized constructor builds *)
Example Vector_n_value_two_sevens :
  Vector_n_value (elt := int_element) (alc := SimpleAllocator) 2 7%Z World_init
  = Ok two_sevens two_sevens_world.
Proof. vm_compute. reflexivity. Qed.

Example two_sevens_wf : wf two_sevens two_sevens_world = true.
Proof. vm_compute. reflexivity. Qed.

(** C1: the invariant of the data model does not hold in every reachable
    state.  From the empty container, the first append gives length 1 in a
    block of 1 slot; the second append finds the storage full, asks for
    [static_cast<size_t>(1 * 1.5) = 1] slot again, and constructs the
    element in slot 1 of the 1-slot block: a reachable state with length 2
    and capacity 1. *)
Theorem second_append_breaks_invariant :
  match run_all (elt := int_element) (alc := SimpleAllocator)
          [CallPushBack 1%Z] Vector_default World_init with
  | Ok v w => size_ v = 1 /\ capacity_ v = 1 /\ class_invariant v w = true
  | _ => False
  end /\
  match run_all (elt := int_element) (alc := SimpleAllocator)
          [CallPushBack 1%Z; CallPushBack 2%Z] Vector_default World_init with
  | Ok v w =>
      reachable (elt := int_element) (alc := SimpleAllocator) v w /\
      size_ v = 2 /\ capacity_ v = 1 /\
      Nat.leb (size_ v) (capacity_ v) = false /\
      class_invariant v w = false /\
      (exists b blk, data_ v = MkPtr (Some b) 0 /\ heap w !! b = Some blk /\
                     bsize blk = 1 /\ cells blk !! 1 = Some 2%Z)
  | _ => False
  end.
Proof.
  split; [vm_compute; repeat split; reflexivity|].
  destruct (run_all _ _ _) as [v w | |] eqn:E; [|vm_compute in E; discriminate..].
  split.
  - revert E. cbn [run_all].
    destruct (run (CallPushBack 1%Z) _ _) as [v1 w1 | |] eqn:E1; cbn [bind]; [|done..].
    destruct (run (CallPushBack 2%Z) v1 w1) as [v2 w2 | |] eqn:E2; cbn [bind]; [|done..].
    intros [= <- <-].
    eapply reach_return; [|exact E2]. eapply reach_return; [|exact E1].
    apply reach_default.
  - vm_compute in E. injection E as <- <-.
    repeat split; try reflexivity.
    eexists _, _. repeat split; reflexivity.
Qed.

(** C2: after two appends to an empty container the capacity is 1, below
    the length 2; across the three appends of 1, 2, 3 the capacities are
    1, 1, 1 and not 1, 2, 3, while the lengths are 1, 2, 3. *)
Theorem appends_outgrow_capacity :
  match push_all (elt := int_element) (alc := SimpleAllocator)
          [1%Z] Vector_default World_init,
        push_all (elt := int_element) (alc := SimpleAllocator)
          [1%Z; 2%Z] Vector_default World_init,
        push_all (elt := int_element) (alc := SimpleAllocator)
          [1%Z; 2%Z; 3%Z] Vector_default World_init with
  | Ok v1 _, Ok v2 _, Ok v3 w3 =>
      (size v1, size v2, size v3) = (1, 2, 3) /\
      (capacity v1, capacity v2, capacity v3) = (1, 1, 1) /\
      elements v3 w3 = [Some 1%Z; Some 2%Z; Some 3%Z]
  | _, _, _ => False
  end.
Proof. vm_compute. repeat split; reflexivity. Qed.

(** C5: when the second of three default constructions throws, the sized
    constructors release the storage and pass the exception on, but the
    element already constructed in slot 0 is not destroyed: the allocator
    events hold no [EvDestroy]. *)
Theorem sized_constructor_failure_destroys_nothing :
  (exists w',
      Vector_n (elt := throwing_element 1) (alc := SimpleAllocator) 3 World_init
      = Throw tt w' /\
      trace w' = [EvAllocate 0 3; EvConstruct 0 0 0%Z; EvDeallocate 0 3] /\
      heap w' = ∅) /\
  (exists w',
      Vector_n_value (elt := throwing_element 1) (alc := SimpleAllocator) 3 5%Z World_init
      = Throw tt w' /\
      trace w' = [EvAllocate 0 3; EvConstruct 0 0 5%Z; EvDeallocate 0 3] /\
      heap w' = ∅).
Proof. split; eexists; vm_compute; repeat split; reflexivity. Qed.

(** [shrink_to_fit] relies on [length <= capacity]: in the state the second
    append leaves (length 2, capacity 1) its guard [capacity_ > size_] is
    false and it returns without doing anything. *)
Example shrink_to_fit_after_overflow :
  match run_all (elt := int_element) (alc := SimpleAllocator)
          [CallPushBack 1%Z; CallPushBack 2%Z; CallShrinkToFit]
          Vector_default World_init with
  | Ok v w => size_ v = 2 /\ capacity_ v = 1
  | _ => False
  end.
Proof. vm_compute. split; reflexivity. Qed.

(** the run of main.cpp: three appends, [resize(5, 42)], [shrink_to_fit()] *)
Example main_run :
  match run_all (elt := int_element) (alc := SimpleAllocator)
          [CallPushBack 1%Z; CallEmplaceBack 2%Z; CallPushBack 3%Z;
           CallResizeValue 5 42%Z; CallShrinkToFit]
          Vector_default World_init with
  | Ok v w =>
      size v = 5 /\ capacity v = 5 /\
      elements v w = [Some 1%Z; Some 2%Z; Some 3%Z; Some 42%Z; Some 42%Z]
  | _ => False
  end.
Proof. vm_compute. repeat split; reflexivity. Qed.

(** ** The theorems at concrete inputs *)



Lemma cend_is_begin_not_end_witness :
  0 < size_ two_sevens /\
  ConstIterator_ne_mut (cend two_sevens) (end_ two_sevens) = true.
Proof.
  split; [simpl; lia|].
  apply (cend_is_begin_not_end two_sevens). simpl; lia.
Defined.

Lemma copy_assign_copies_first_witness :
  wf two_sevens two_sevens_world = true /\
  exists v' w',
    copy_assign (elt := int_element) (alc := SimpleAllocator)
      two_sevens two_sevens two_sevens_world = Ok v' w' /\
    size_ v' = 2 /\
    (forall i, i < 2 -> get v' i w' = get two_sevens i two_sevens_world).
Proof.
  split; [vm_compute; reflexivity|].
  destruct (copy_assign_copies_first (elt := int_element) (alc := SimpleAllocator)
              two_sevens two_sevens two_sevens_world) as (H1 & _ & H3);
    [vm_compute; reflexivity | vm_compute; reflexivity |].
  destruct H3 as (v' & w' & Heq); [reflexivity | intros; reflexivity |].
  rewrite Heq in H1. destruct H1 as (Hs & Hg & _).
  exists v', w'. repeat split; assumption.
Defined.


(** ** The further properties at concrete inputs *)

Example one_of_three_wf : wf one_of_three one_of_three_world = true.
Proof. vm_compute. reflexivity. Qed.

Example pair_world_wf :
  wf two_sevens pair_world = true /\ wf single_five pair_world = true.
Proof. split; vm_compute; reflexivity. Qed.


Lemma emplace_back_spare_capacity_witness :
  exists v' w',
    emplace_back (elt := int_element) (alc := SimpleAllocator) 9%Z
      one_of_three one_of_three_world = Ok v' w'.
Proof.
  apply (emplace_back_spare_capacity (elt := int_element) (alc := SimpleAllocator)
           9%Z one_of_three one_of_three_world).
  - vm_compute. reflexivity.
  - simpl. lia.
  - reflexivity.
Defined.

Lemma pop_back_removes_last_witness :
  exists v' w',
    pop_back two_sevens two_sevens_world = Ok v' w' /\
    size_ v' = 1 /\ capacity_ v' = 2 /\ data_ v' = data_ two_sevens /\
    (forall i, i < 1 -> get v' i w' = get two_sevens i two_sevens_world) /\
    get v' 1 w' = None /\
    n_alloc w' = 1 /\
    wf v' w' = true.
Proof.
  apply (pop_back_removes_last two_sevens two_sevens_world).
  - vm_compute. reflexivity.
  - simpl. lia.
Defined.

Lemma pop_back_undoes_push_back_witness :
  exists v1 w1 v2 w2,
    push_back (elt := int_element) (alc := SimpleAllocator) 9%Z
      two_sevens two_sevens_world = Ok v1 w1 /\
    pop_back v1 w1 = Ok v2 w2 /\
    size_ v2 = 2 /\ capacity_ v2 = capacity_ v1 /\
    elements v2 w2 = elements two_sevens two_sevens_world.
Proof.
  destruct (push_back (elt := int_element) (alc := SimpleAllocator) 9%Z
              two_sevens two_sevens_world) as [v1 w1 | |] eqn:E;
    [|vm_compute in E; discriminate..].
  destruct (pop_back_undoes_push_back (elt := int_element) (alc := SimpleAllocator)
              9%Z two_sevens two_sevens_world v1 w1) as (v2 & w2 & H);
    [vm_compute; reflexivity | exact E |].
  exists v1, w1, v2, w2. split; [reflexivity | exact H].
Defined.


Lemma clear_keeps_capacity_witness :
  exists v' w',
    clear two_sevens two_sevens_world = Ok v' w' /\
    size_ v' = 0 /\ capacity_ v' = 2 /\ data_ v' = data_ two_sevens /\
    (forall i, i < 2 -> get two_sevens i w' = None) /\
    (forall b, base (data_ two_sevens) = Some b -> is_Some (heap w' !! b)) /\
    trace w' = trace two_sevens_world ++ [EvDestroy 0 0; EvDestroy 0 1] /\
    wf v' w' = true.
Proof.
  apply (clear_keeps_capacity two_sevens two_sevens_world).
  vm_compute. reflexivity.
Defined.

Lemma resize_truncates_witness :
  exists v' w',
    resize (elt := int_element) (alc := SimpleAllocator) 1 two_sevens two_sevens_world
    = Ok v' w' /\
    resize_value (elt := int_element) (alc := SimpleAllocator) 1 42%Z
      two_sevens two_sevens_world = Ok v' w' /\
    size_ v' = 1 /\ capacity_ v' = 2 /\ data_ v' = data_ two_sevens /\
    (forall i, i < 1 -> get v' i w' = get two_sevens i two_sevens_world) /\
    (forall i, 1 <= i < 2 -> get v' i w' = None) /\
    n_alloc w' = 1 /\ n_ctor w' = 2 /\
    wf v' w' = true.
Proof.
  apply (resize_truncates (elt := int_element) (alc := SimpleAllocator)
           1 42%Z two_sevens two_sevens_world).
  - vm_compute. reflexivity.
  - simpl. lia.
Defined.


Lemma resize_failure_leaves_elements_witness :
  exists w',
    resize_value (elt := throwing_element 2) (alc := SimpleAllocator) 3 42%Z
      one_of_three one_of_three_world = Throw one_of_three w' /\
    (forall i, i < 1 -> get one_of_three i w' = get one_of_three i one_of_three_world) /\
    (forall i, 1 <= i < 2 -> get one_of_three i w' = Some 42%Z) /\
    trace w' = trace one_of_three_world ++ [EvConstruct 0 1 42%Z].
Proof.
  apply (resize_failure_leaves_elements (elt := throwing_element 2)
           (alc := SimpleAllocator) 3 42%Z 1 one_of_three one_of_three_world).
  - vm_compute. reflexivity.
  - simpl. lia.
  - simpl. lia.
  - simpl. lia.
  - intros j Hj. destruct j; [reflexivity | lia].
  - reflexivity.
Defined.


Lemma copy_constructor_copies_witness :
  exists v' w',
    Vector_copy (elt := int_element) (alc := SimpleAllocator)
      two_sevens two_sevens_world = Ok v' w'.
Proof.
  apply (copy_constructor_copies (elt := int_element) (alc := SimpleAllocator)
           two_sevens two_sevens_world).
  - vm_compute. reflexivity.
  - reflexivity.
  - intros j Hj. reflexivity.
Defined.

Lemma copy_constructor_failure_destroys_nothing_witness :
  exists w',
    Vector_copy (elt := throwing_element 3) (alc := SimpleAllocator)
      two_sevens two_sevens_world = Throw tt w' /\
    heap w' = heap two_sevens_world /\
    trace w' =
      trace two_sevens_world ++ [EvAllocate 1 2; EvConstruct 1 0 7%Z; EvDeallocate 1 2].
Proof.
  apply (copy_constructor_failure_destroys_nothing (elt := throwing_element 3)
           (alc := SimpleAllocator) two_sevens two_sevens_world 1).
  - vm_compute. reflexivity.
  - reflexivity.
  - simpl. lia.
  - intros j Hj. destruct j; [reflexivity | lia].
  - reflexivity.
Defined.





Lemma operator_eq_compares_elements_witness :
  exists r,
    Vector_eq Z.eqb two_sevens single_five pair_world = Some r /\
    Vector_ne Z.eqb two_sevens single_five pair_world = Some (negb r) /\
    (r = true <-> elements two_sevens pair_world = elements single_five pair_world).
Proof.
  apply (operator_eq_compares_elements Z.eqb two_sevens single_five pair_world).
  - intros x y. apply Z.eqb_eq.
  - vm_compute. reflexivity.
  - vm_compute. reflexivity.
Defined.

Lemma max_size_is_largest_count_witness :
  ((10 <= max_size 64 4)%N <-> (10 * 4 <= SIZE_MAX 64)%N) /\
  ((10 <= max_size 64 4)%N -> allocate_bytes 64 4 10 = (10 * 4)%N) /\
  ((max_size 64 4 < 10)%N -> (allocate_bytes 64 4 10 < 10 * 4)%N).
Proof.
  apply (max_size_is_largest_count 64 4 10). lia.
Defined.

Lemma allocation_failure_restores_state_witness :
  exists w',
    run (elt := int_element) (alc := failing_allocator 1) (CallReserve 5)
      two_sevens two_sevens_world = Throw two_sevens w' /\
    heap w' = heap two_sevens_world /\ trace w' = trace two_sevens_world /\
    n_ctor w' = n_ctor two_sevens_world /\ next_block w' = next_block two_sevens_world.
Proof.
  apply (allocation_failure_restores_state (elt := int_element)
           (alc := failing_allocator 1) (CallReserve 5) two_sevens two_sevens_world 5).
  - reflexivity.
  - reflexivity.
Defined.

Lemma at_checks_bounds_witness :
  (at_ two_sevens 1 two_sevens_world = inl tt <-> size_ two_sevens <= 1) /\
  (1 < size_ two_sevens ->
   exists x, at_ two_sevens 1 two_sevens_world = inr (Some x) /\
             get two_sevens 1 two_sevens_world = Some x).
Proof.
  apply (at_checks_bounds two_sevens two_sevens_world 1).
  vm_compute. reflexivity.
Defined.


Lemma length_within_capacity_preserved_witness :
  match run (elt := int_element) (alc := SimpleAllocator) (CallPushBack 9%Z)
          two_sevens two_sevens_world with
  | Ok v' w' | Throw v' w' => size_ v' <= capacity_ v'
  | Undefined => False
  end.
Proof.
  apply (length_within_capacity_preserved (elt := int_element) (alc := SimpleAllocator)
           (CallPushBack 9%Z) two_sevens two_sevens_world).
  - vm_compute. reflexivity.
  - simpl. lia.
  - intros x _ [H _]. simpl in H. lia.
Defined.

Lemma range_constructor_failure_leaks_witness :
  exists w2,
    Vector_range (elt := throwing_element 1) (alc := SimpleAllocator)
      [1%Z; 2%Z] World_init = Throw tt w2 /\
    exists b blk,
      0 <= b /\ heap w2 !! b = Some blk /\
      forall i y, [1%Z] !! i = Some y -> cells blk !! i = Some y.
Proof.
  destruct (push_all (elt := throwing_element 1) (alc := SimpleAllocator)
              [1%Z] (MkVector nullptr 0 0) World_init) as [v1 w1 | |] eqn:E1;
    [|vm_compute in E1; discriminate..].
  destruct (push_back (elt := throwing_element 1) (alc := SimpleAllocator)
              2%Z v1 w1) as [| v2 w2 |] eqn:E2.
  - vm_compute in E1. injection E1 as <- <-. vm_compute in E2. discriminate.
  - exists w2.
    apply (range_constructor_failure_leaks (elt := throwing_element 1)
             (alc := SimpleAllocator) [1%Z] 2%Z [] World_init v1 w1 v2 w2).
    + vm_compute. reflexivity.
    + discriminate.
    + exact E1.
    + exact E2.
  - vm_compute in E1. injection E1 as <- <-. vm_compute in E2. discriminate.
Defined.

Lemma calls_in_place_do_not_allocate_witness :
  match run (elt := int_element) (alc := SimpleAllocator) (CallResizeValue 3 42%Z)
          one_of_three one_of_three_world with
  | Ok _ w' | Throw _ w' => n_alloc w' = n_alloc one_of_three_world
  | Undefined => True
  end.
Proof.
  apply (calls_in_place_do_not_allocate (elt := int_element) (alc := SimpleAllocator)
           (CallResizeValue 3 42%Z) one_of_three one_of_three_world).
  reflexivity.
Defined.
